(** * InternalPower: internal power records, builders and models
    (liberty/InternalPower.cc of OpenSTA).

    Pointers are heap locations ([option loc] for nullable ones); the heap
    maps each live location to the object stored there and keeps the log of
    releases, so that a release of a location that is not live (a double or
    invalid free) is an error.  Queries run in a small monad that reads the
    heap, threads the caller's out-parameters and the list of fatal errors
    raised, and may abort on a null or dangling dereference. *)

From stdpp Require Import base gmap strings list.
From Stdlib Require Import ZArith PrimFloat.

Abbreviation loc := positive.

(** ** Data model *)

(** [TableAxisVariable] (TableModel.hh). *)
Inductive TableAxisVariable :=
  | total_output_net_capacitance
  | equal_or_opposite_output_net_capacitance
  | input_net_transition
  | input_transition_time
  | related_pin_transition
  | constrained_pin_transition
  | output_pin_transition
  | connect_delay
  | related_out_total_output_net_capacitance
  | time
  | iv_output_voltage
  | input_noise_width
  | input_noise_height
  | input_voltage
  | output_voltage
  | path_depth
  | path_distance
  | normalized_voltage
  | unknown.

#[global] Instance TableAxisVariable_eq_dec : EqDecision TableAxisVariable.
Proof. solve_decision. Defined.

Record TableAxis := mkTableAxis {
  axis_variable : TableAxisVariable;
  axis_values : list float
}.

(** The table engine's view of a table: its declared order, its (nullable)
    axes and its values. *)
Record TableModel := mkTableModel {
  tm_order : Z;
  tm_axis1 : option TableAxis;
  tm_axis2 : option TableAxis;
  tm_axis3 : option TableAxis;
  tm_values : list float
}.

(** [RiseFall]: [riseIndex] is 0, [fallIndex] is 1. *)
Inductive RiseFall := rise | fall.

Definition RiseFall_range : list RiseFall := [rise; fall].

(** The two-slot array [models_[RiseFall::index()]]. *)
Record ModelSlots := mkModelSlots {
  slot_rise : option loc;
  slot_fall : option loc
}.

Definition slot (rf : RiseFall) (ms : ModelSlots) : option loc :=
  match rf with rise => slot_rise ms | fall => slot_fall ms end.

Definition set_slot (rf : RiseFall) (p : option loc) (ms : ModelSlots)
  : ModelSlots :=
  match rf with
  | rise => mkModelSlots p (slot_fall ms)
  | fall => mkModelSlots (slot_rise ms) p
  end.

(** [InternalPowerModel]: wraps a (nullable) [TableModel *model_]. *)
Record InternalPowerModel := mkInternalPowerModel { model_ : option loc }.

(** [InternalPowerAttrs]: [when_], [models_], [related_pg_pin_]. *)
Record InternalPowerAttrs := mkInternalPowerAttrs {
  attrs_when_ : option loc;
  attrs_models_ : ModelSlots;
  attrs_related_pg_pin_ : option loc
}.

(** [InternalPower]: [port_], [related_port_], [when_], [models_],
    [related_pg_pin_]. *)
Record InternalPower := mkInternalPower {
  port_ : loc;
  related_port_ : loc;
  when_ : option loc;
  models_ : ModelSlots;
  related_pg_pin_ : option loc
}.

(** The parts of [LibertyPort] and [LibertyCell] this file uses. *)
Record LibertyPort := mkLibertyPort { port_liberty_cell : loc }.
Record LibertyCell := mkLibertyCell { internal_powers_ : list loc }.

(** Condition expressions ([FuncExpr]). *)
Inductive FuncExpr :=
  | FuncPort (port : loc)
  | FuncNot (e : FuncExpr)
  | FuncOr (e1 e2 : FuncExpr)
  | FuncAnd (e1 e2 : FuncExpr)
  | FuncXor (e1 e2 : FuncExpr)
  | FuncOne
  | FuncZero.

Inductive obj :=
  | OTable (t : TableModel)
  | OPowerModel (m : InternalPowerModel)
  | OExpr (e : FuncExpr)
  | OString (s : string)
  | OAttrs (a : InternalPowerAttrs)
  | OPower (ip : InternalPower)
  | OPort (p : LibertyPort)
  | OCell (c : LibertyCell).

(** The store: live objects and the log of released locations. *)
Record Heap := mkHeap {
  hp : gmap loc obj;
  freed : list loc
}.

(** ** Queries *)

(** A fatal error raised through [criticalError], with the caller's three
    out-parameters as they are at the moment it is raised. *)
Record Fatal := mkFatal {
  fatal_id : Z;
  fatal_msg : string;
  fatal_outs : float * float * float
}.

(** The query state: the out-parameters [axis_value1..3] of the caller of
    [findAxisValues] and the fatal errors raised so far. *)
Record QState := mkQState {
  outs : float * float * float;
  fatals : list Fatal
}.

Inductive Crash := NullTable | NullAxis | DanglingPtr.

Inductive Outcome (A : Type) :=
  | Ret (a : A)
  | Abort (c : Crash).
Arguments Ret {A} a.
Arguments Abort {A} c.

Definition Q (A : Type) : Type := gmap loc obj -> QState -> QState * Outcome A.

Definition qret {A} (a : A) : Q A := fun _ st => (st, Ret a).

Definition qbind {A B} (m : Q A) (k : A -> Q B) : Q B :=
  fun h st =>
    match m h st with
    | (st', Ret a) => k a h st'
    | (st', Abort c) => (st', Abort c)
    end.

Definition qabort {A} (c : Crash) : Q A := fun _ st => (st, Abort c).

Notation "'let*' x := m 'in' k" := (qbind m (fun x => k))
  (at level 200, x name, m at level 100, k at level 200).
Notation "m ;; k" := (qbind m (fun _ => k)) (at level 100, right associativity).

Definition set_outs (v : float * float * float) : Q unit :=
  fun _ st => (mkQState v (fatals st), Ret tt).

Definition set_axis_value1 (v : float) : Q unit :=
  fun h st => let '(_, v2, v3) := outs st in set_outs (v, v2, v3) h st.
Definition set_axis_value2 (v : float) : Q unit :=
  fun h st => let '(v1, _, v3) := outs st in set_outs (v1, v, v3) h st.
Definition set_axis_value3 (v : float) : Q unit :=
  fun h st => let '(v1, v2, _) := outs st in set_outs (v1, v2, v) h st.

Definition get_outs : Q (float * float * float) := fun _ st => (st, Ret (outs st)).

(** Modelled from the spec: [criticalError] (not in this file) is the shared
    fatal-error facility; it reports the error with its numeric identifier.
    The real facility then terminates, so what a run shows after its first
    fatal error is what a fault-injection harness sees, in which the call
    returns. *)
Definition criticalError (id : Z) (msg : string) : Q unit :=
  fun _ st =>
    (mkQState (outs st) (fatals st ++ [mkFatal id msg (outs st)]), Ret tt).

(** [model_->...]: dereference of a [TableModel *]. *)
Definition deref_table (p : option loc) : Q TableModel :=
  fun h st =>
    match p with
    | None => (st, Abort NullTable)
    | Some l =>
        match h !! l with
        | Some (OTable t) => (st, Ret t)
        | _ => (st, Abort DanglingPtr)
        end
    end.

Definition deref_power_model (l : loc) : Q InternalPowerModel :=
  fun h st =>
    match h !! l with
    | Some (OPowerModel m) => (st, Ret m)
    | _ => (st, Abort DanglingPtr)
    end.

Definition deref_port (l : loc) : Q LibertyPort :=
  fun h st =>
    match h !! l with
    | Some (OPort p) => (st, Ret p)
    | _ => (st, Abort DanglingPtr)
    end.

Definition zero : float := 0%float.

(** [InternalPowerModel::axisValue]. *)
Definition axisValue (axis : option TableAxis) (in_slew load_cap : float)
  : Q float :=
  match axis with
  | None => qabort NullAxis
  | Some a =>
      let var := axis_variable a in
      if decide (var = input_transition_time) then qret in_slew
      else if decide (var = total_output_net_capacitance) then qret load_cap
      else (criticalError 226 "unsupported table axes" ;; qret zero)
  end.

(** [InternalPowerModel::findAxisValues]: [model_] is the wrapped table
    pointer, dereferenced without a null check. *)
Definition findAxisValues (model : option loc) (in_slew load_cap : float)
  : Q unit :=
  let* t := deref_table model in
  match tm_order t with
  | 0%Z =>
      set_axis_value1 zero ;; set_axis_value2 zero ;; set_axis_value3 zero
  | 1%Z =>
      let* v1 := axisValue (tm_axis1 t) in_slew load_cap in
      set_axis_value1 v1 ;;
      set_axis_value2 zero ;; set_axis_value3 zero
  | 2%Z =>
      let* v1 := axisValue (tm_axis1 t) in_slew load_cap in
      set_axis_value1 v1 ;;
      let* v2 := axisValue (tm_axis2 t) in_slew load_cap in
      set_axis_value2 v2 ;;
      set_axis_value3 zero
  | 3%Z =>
      let* v1 := axisValue (tm_axis1 t) in_slew load_cap in
      set_axis_value1 v1 ;;
      let* v2 := axisValue (tm_axis2 t) in_slew load_cap in
      set_axis_value2 v2 ;;
      let* v3 := axisValue (tm_axis3 t) in_slew load_cap in
      set_axis_value3 v3
  | _ =>
      set_axis_value1 zero ;; set_axis_value2 zero ;; set_axis_value3 zero ;;
      criticalError 225 "unsupported table order"
  end.

(** [InternalPowerModel::checkAxis]. *)
Definition checkAxis (axis : TableAxis) : bool :=
  let var := axis_variable axis in
  bool_decide (var = constrained_pin_transition)
  || bool_decide (var = related_pin_transition)
  || bool_decide (var = related_out_total_output_net_capacitance).

(** [InternalPowerModel::checkAxes]. *)
Definition checkAxes (model : TableModel) : bool :=
  let axis_ok := true in
  let axis_ok :=
    match tm_axis1 model with Some a => axis_ok && checkAxis a | None => axis_ok end in
  let axis_ok :=
    match tm_axis2 model with Some a => axis_ok && checkAxis a | None => axis_ok end in
  axis_ok && bool_decide (tm_axis3 model = None).

Section Queries.

(** The external table engine: [TableModel::findValue] and
    [TableModel::reportValue], and the power unit of a cell's library
    ([cell->libertyLibrary()->units()->powerUnit()]).  A cell and a corner
    ([const Pvt *]) are passed as pointers. *)
Variable findValue :
  TableModel -> loc -> option loc -> float -> float -> float -> float.
Variable reportValue :
  string -> TableModel -> loc -> option loc -> float -> option string ->
  float -> float -> string -> Z -> string.
Variable cellPowerUnit : loc -> string.

(** [InternalPowerModel::power]. *)
Definition InternalPowerModel_power (m : InternalPowerModel) (cell : loc)
  (pvt : option loc) (in_slew load_cap : float) : Q float :=
  match model_ m with
  | Some _ =>
      findAxisValues (model_ m) in_slew load_cap ;;
      let* t := deref_table (model_ m) in
      let* vs := get_outs in
      let '(axis_value1, axis_value2, axis_value3) := vs in
      qret (findValue t cell pvt axis_value1 axis_value2 axis_value3)
  | None => qret zero
  end.

(** [InternalPowerModel::reportPower]. *)
Definition InternalPowerModel_reportPower (m : InternalPowerModel) (cell : loc)
  (pvt : option loc) (in_slew load_cap : float) (digits : Z) : Q string :=
  match model_ m with
  | Some _ =>
      findAxisValues (model_ m) in_slew load_cap ;;
      let* t := deref_table (model_ m) in
      let* vs := get_outs in
      let '(axis_value1, axis_value2, axis_value3) := vs in
      qret (reportValue "Power" t cell pvt axis_value1 None
              axis_value2 axis_value3 (cellPowerUnit cell) digits)
  | None => qret ""%string
  end.

(** [InternalPower::libertyCell]: [port_->libertyCell()]. *)
Definition libertyCell (ip : InternalPower) : Q loc :=
  let* p := deref_port (port_ ip) in
  qret (port_liberty_cell p).

(** [InternalPower::power]. *)
Definition InternalPower_power (ip : InternalPower) (rf : RiseFall)
  (pvt : option loc) (in_slew load_cap : float) : Q float :=
  match slot rf (models_ ip) with
  | Some ml =>
      let* model := deref_power_model ml in
      let* cell := libertyCell ip in
      InternalPowerModel_power model cell pvt in_slew load_cap
  | None => qret zero
  end.

End Queries.

(** ** Construction and teardown *)

(** [delete] of a location: releases a live object; releasing a location
    that holds no live object is an error ([None]). *)
Definition free (l : loc) (H : Heap) : option Heap :=
  match hp H !! l with
  | Some _ => Some (mkHeap (delete l (hp H)) (freed H ++ [l]))
  | None => None
  end.

(** [delete model_] for a [TableModel *]: null is a no-op. *)
Definition delete_table (p : option loc) (H : Heap) : option Heap :=
  match p with
  | None => Some H
  | Some l => free l H
  end.

(** [delete] of an [InternalPowerModel *]: null is a no-op; otherwise
    [~InternalPowerModel] deletes [model_], then the object is released. *)
Definition delete_power_model (p : option loc) (H : Heap) : option Heap :=
  match p with
  | None => Some H
  | Some l =>
      match hp H !! l with
      | Some (OPowerModel m) => delete_table (model_ m) H ≫= free l
      | _ => None
      end
  end.

(** Modelled from the spec: [FuncExpr::deleteSubexprs] (not in this file)
    releases the condition expression's owned subexpression tree; the tree
    is held as one object at the expression's location. *)
Definition deleteSubexprs (e : loc) (H : Heap) : option Heap :=
  match hp H !! e with
  | Some (OExpr _) => free e H
  | _ => None
  end.

(** Modelled from the spec: [stringDelete] (not in this file) releases a
    string; a null string is a no-op. *)
Definition stringDelete (p : option loc) (H : Heap) : option Heap :=
  match p with
  | None => Some H
  | Some l => free l H
  end.

(** [InternalPowerAttrs::deleteContents]. *)
Definition deleteContents (a : InternalPowerAttrs) (H : Heap) : option Heap :=
  let rise_model := slot rise (attrs_models_ a) in
  let fall_model := slot fall (attrs_models_ a) in
  H1 ← delete_power_model rise_model H;
  H2 ← (if decide (fall_model ≠ rise_model)
        then delete_power_model fall_model H1 else Some H1);
  H3 ← (match attrs_when_ a with
        | Some w => deleteSubexprs w H2
        | None => Some H2
        end);
  stringDelete (attrs_related_pg_pin_ a) H3.

(** [delete] of an [InternalPowerAttrs *]: [~InternalPowerAttrs] has an
    empty body, then the object itself is released. *)
Definition delete_attrs (p : loc) (H : Heap) : option Heap :=
  match hp H !! p with
  | Some (OAttrs _) => free p H
  | _ => None
  end.

(** [delete] of an [InternalPower *]: [~InternalPower] has an empty body,
    then the object itself is released. *)
Definition delete_internal_power (p : loc) (H : Heap) : option Heap :=
  match hp H !! p with
  | Some (OPower _) => free p H
  | _ => None
  end.

(** Modelled from the spec: [LibertyCell::addInternalPower] (not in this
    file) appends the record to the cell's internal-power list. *)
Definition addInternalPower (cell : loc) (power : loc) (H : Heap) : option Heap :=
  match hp H !! cell with
  | Some (OCell c) =>
      Some (mkHeap (<[cell := OCell (mkLibertyCell (internal_powers_ c ++ [power]))]> (hp H))
              (freed H))
  | _ => None
  end.

(** [InternalPower::InternalPower(cell, port, related_port, attrs)], run on
    the fresh storage [self] of a [new InternalPower(...)]. *)
Definition InternalPower_ctor (self : loc) (cell port related_port attrs : loc)
  (H : Heap) : option Heap :=
  match hp H !! attrs with
  | Some (OAttrs a) =>
      let models :=
        fold_left (fun ms rf => set_slot rf (slot rf (attrs_models_ a)) ms)
          RiseFall_range (mkModelSlots None None) in
      let ip := mkInternalPower port related_port (attrs_when_ a) models
                  (attrs_related_pg_pin_ a) in
      addInternalPower cell self (mkHeap (<[self := OPower ip]> (hp H)) (freed H))
  | _ => None
  end.

(** ** Builder methods *)

#[global] Instance RiseFall_eq_dec : EqDecision RiseFall.
Proof. solve_decision. Defined.



(** [InternalPowerAttrs::model]. *)
Definition attrs_model (a : InternalPowerAttrs) (rf : RiseFall) : option loc :=
  slot rf (attrs_models_ a).

(** A member assignment on the builder stored at [self]. *)
Definition update_attrs (self : loc) (f : InternalPowerAttrs -> InternalPowerAttrs)
  (H : Heap) : option Heap :=
  match hp H !! self with
  | Some (OAttrs a) => Some (mkHeap (<[self := OAttrs (f a)]> (hp H)) (freed H))
  | _ => None
  end.

(** [InternalPowerAttrs::setWhen]. *)
Definition setWhen (self : loc) (when : option loc) (H : Heap) : option Heap :=
  update_attrs self
    (fun a => mkInternalPowerAttrs when (attrs_models_ a) (attrs_related_pg_pin_ a)) H.

(** [InternalPowerAttrs::setModel]. *)
Definition setModel (self : loc) (rf : RiseFall) (model : option loc) (H : Heap)
  : option Heap :=
  update_attrs self
    (fun a => mkInternalPowerAttrs (attrs_when_ a) (set_slot rf model (attrs_models_ a))
                (attrs_related_pg_pin_ a)) H.

(** Modelled from the spec: [stringCopy] (not in this file) reads the
    given C string and makes a copy of it in fresh storage; a null string
    gives null.  Reading a location that holds no live string is an error
    ([None]). *)
Definition stringCopy (str : option loc) (H : Heap) : option (Heap * option loc) :=
  match str with
  | None => Some (H, None)
  | Some l =>
      match hp H !! l with
      | Some (OString s) =>
          let l' := fresh (dom (hp H)) in
          Some (mkHeap (<[l' := OString s]> (hp H)) (freed H), Some l')
      | _ => None
      end
  end.

(** [InternalPowerAttrs::setRelatedPgPin]: the old string is deleted before
    the argument is copied. *)
Definition setRelatedPgPin (self : loc) (related_pg_pin : option loc) (H : Heap)
  : option Heap :=
  match hp H !! self with
  | Some (OAttrs a) =>
      H1 ← stringDelete (attrs_related_pg_pin_ a) H;
      '(H2, p) ← stringCopy related_pg_pin H1;
      update_attrs self
        (fun a' => mkInternalPowerAttrs (attrs_when_ a') (attrs_models_ a') p) H2
  | _ => None
  end.

(** ** Small checks on concrete inputs *)

Definition ax_slew : TableAxis := mkTableAxis input_transition_time [1.0%float; 2.0%float].
Definition ax_load : TableAxis := mkTableAxis total_output_net_capacitance [0.5%float].
Definition ax_rel : TableAxis := mkTableAxis related_pin_transition [].

Definition st0 : QState := mkQState (7.0%float, 7.0%float, 7.0%float) [].

Example findAxisValues_order2 :
  findAxisValues (Some 1%positive) 0.75%float 3.25%float
    {[ 1%positive := OTable (mkTableModel 2 (Some ax_slew) (Some ax_load) None []) ]} st0
  = (mkQState (0.75%float, 3.25%float, zero) [], Ret tt).
Proof. reflexivity. Qed.

Example findAxisValues_order4 :
  findAxisValues (Some 1%positive) 0.75%float 3.25%float
    {[ 1%positive := OTable (mkTableModel 4 None None None []) ]} st0
  = (mkQState (zero, zero, zero)
       [mkFatal 225 "unsupported table order" (zero, zero, zero)], Ret tt).
Proof. reflexivity. Qed.

Example checkAxes_rel :
  checkAxes (mkTableModel 2 (Some ax_rel) (Some ax_rel) None []) = true.
Proof. reflexivity. Qed.

(** ** Proof helpers *)

Definition axis_val (a : TableAxis) (in_slew load_cap : float) : float :=
  if decide (axis_variable a = input_transition_time) then in_slew
  else if decide (axis_variable a = total_output_net_capacitance) then load_cap
  else zero.

Definition axis_fatals (a : TableAxis) (o : float * float * float) : list Fatal :=
  if decide (axis_variable a = input_transition_time) then []
  else if decide (axis_variable a = total_output_net_capacitance) then []
  else [mkFatal 226 "unsupported table axes" o].

Lemma axisValue_Some (a : TableAxis) s l h st :
  axisValue (Some a) s l h st =
  (mkQState (outs st) (fatals st ++ axis_fatals a (outs st)), Ret (axis_val a s l)).
Proof.
  destruct st as [o fs].
  unfold axisValue, axis_fatals, axis_val; simpl.
  destruct (decide _); [by rewrite app_nil_r|].
  destruct (decide _); [by rewrite app_nil_r|].
  reflexivity.
Qed.

Lemma axis_fatals_226 (a : TableAxis) o :
  Forall (fun f => fatal_id f = 226%Z) (axis_fatals a o).
Proof.
  unfold axis_fatals. repeat destruct (decide _); repeat constructor.
Qed.

(** ** Claims *)

(** C2: [axisValue] returns [in_slew] for an input-transition-time axis and
    [load_cap] for a total-output-net-capacitance axis, without any fatal
    error; for every other variable kind it raises the fatal error 226
    "unsupported table axes" and returns 0.0. *)
Theorem axisValue_spec (a : TableAxis) (in_slew load_cap : float)
  (h : gmap loc obj) (st : QState) :
  (axis_variable a = input_transition_time ->
     axisValue (Some a) in_slew load_cap h st = (st, Ret in_slew)) /\
  (axis_variable a = total_output_net_capacitance ->
     axisValue (Some a) in_slew load_cap h st = (st, Ret load_cap)) /\
  (axis_variable a <> input_transition_time ->
   axis_variable a <> total_output_net_capacitance ->
     axisValue (Some a) in_slew load_cap h st =
     (mkQState (outs st)
        (fatals st ++ [mkFatal 226 "unsupported table axes" (outs st)]),
      Ret zero)).
Proof.
  unfold axisValue.
  split; [|split]; intros Hv.
  - by rewrite decide_True.
  - rewrite decide_False by (rewrite Hv; discriminate).
    by rewrite decide_True.
  - intros Hv'. rewrite decide_False by done. rewrite decide_False by done.
    reflexivity.
Qed.

(** C5: [checkAxes] holds exactly when axis1 and axis2, where present, have
    a variable kind among constrained-pin transition, related-pin transition
    and related-output total output net capacitance, and axis3 is absent; a
    present axis3 makes it false. *)
Theorem checkAxes_spec (t : TableModel) :
  let related_kind (a : TableAxis) :=
    axis_variable a = constrained_pin_transition \/
    axis_variable a = related_pin_transition \/
    axis_variable a = related_out_total_output_net_capacitance in
  (checkAxes t = true <->
     (forall a, tm_axis1 t = Some a -> related_kind a) /\
     (forall a, tm_axis2 t = Some a -> related_kind a) /\
     tm_axis3 t = None) /\
  (forall a3, tm_axis3 t = Some a3 -> checkAxes t = false).
Proof.
  intros related_kind.
  assert (Hax : forall a, checkAxis a = true <-> related_kind a).
  { intros a. unfold checkAxis, related_kind.
    rewrite !orb_true_iff, !bool_decide_eq_true. tauto. }
  split.
  - unfold checkAxes.
    destruct (tm_axis1 t) as [a1|], (tm_axis2 t) as [a2|], (tm_axis3 t) as [a3|];
      simpl; rewrite ?andb_true_iff, ?bool_decide_eq_true;
      split;
      solve [ intros; destruct_and?; repeat split; try done;
              intros ? [= <-]; by apply Hax
            | intros (H1 & H2 & H3); try discriminate;
              repeat split; try done; by apply Hax; auto ].
  - intros a3 H3. unfold checkAxes. rewrite H3.
    by rewrite bool_decide_eq_false_2, andb_false_r.
Qed.

Lemma qbind_axisValue {B} (a : TableAxis) s l (k : float -> Q B) h st :
  qbind (axisValue (Some a) s l) k h st =
  k (axis_val a s l) h (mkQState (outs st) (fatals st ++ axis_fatals a (outs st))).
Proof. unfold qbind. by rewrite axisValue_Some. Qed.

Lemma qbind_set1 {B} v (k : unit -> Q B) h o1 o2 o3 fs :
  qbind (set_axis_value1 v) k h (mkQState (o1, o2, o3) fs) =
  k tt h (mkQState (v, o2, o3) fs).
Proof. reflexivity. Qed.
Lemma qbind_set2 {B} v (k : unit -> Q B) h o1 o2 o3 fs :
  qbind (set_axis_value2 v) k h (mkQState (o1, o2, o3) fs) =
  k tt h (mkQState (o1, v, o3) fs).
Proof. reflexivity. Qed.
Lemma set3_run v h o1 o2 o3 fs :
  set_axis_value3 v h (mkQState (o1, o2, o3) fs) =
  (mkQState (o1, o2, v) fs, Ret tt).
Proof. reflexivity. Qed.

Lemma set_axis_values (v1 v2 v3 : float) h st :
  (set_axis_value1 v1 ;; set_axis_value2 v2 ;; set_axis_value3 v3) h st =
  (mkQState (v1, v2, v3) (fatals st), Ret tt).
Proof. destruct st as [[[o1 o2] o3] fs]. reflexivity. Qed.

(** C1: on a non-null wrapped table (each axis the declared order uses being
    present), [findAxisValues] dispatches on the order: order 0 gives
    (0.0, 0.0, 0.0), order 1 (axisValue(axis1), 0.0, 0.0), order 2
    (axisValue(axis1), axisValue(axis2), 0.0), order 3 the three axis
    values, and no fatal error other than the ones [axisValue] raises; any
    other order raises exactly the fatal error 225 "unsupported table order"
    once, with the three values already set to 0.0 when it is raised. *)
Theorem findAxisValues_dispatch (h : gmap loc obj) (t : loc) (tbl : TableModel)
  (in_slew load_cap : float) (st : QState)
  (Ht : h !! t = Some (OTable tbl))
  (H1 : (0 < tm_order tbl <= 3)%Z -> is_Some (tm_axis1 tbl))
  (H2 : (1 < tm_order tbl <= 3)%Z -> is_Some (tm_axis2 tbl))
  (H3 : tm_order tbl = 3%Z -> is_Some (tm_axis3 tbl)) :
  let av (ax : option TableAxis) :=
    match axisValue ax in_slew load_cap h st with
    | (_, Ret v) => v
    | (_, Abort _) => zero
    end in
  exists st' extra,
    findAxisValues (Some t) in_slew load_cap h st = (st', Ret tt) /\
    fatals st' = fatals st ++ extra /\
    match tm_order tbl with
    | 0%Z => outs st' = (zero, zero, zero) /\ extra = []
    | 1%Z => outs st' = (av (tm_axis1 tbl), zero, zero) /\
             Forall (fun f => fatal_id f = 226%Z) extra
    | 2%Z => outs st' = (av (tm_axis1 tbl), av (tm_axis2 tbl), zero) /\
             Forall (fun f => fatal_id f = 226%Z) extra
    | 3%Z => outs st' = (av (tm_axis1 tbl), av (tm_axis2 tbl), av (tm_axis3 tbl)) /\
             Forall (fun f => fatal_id f = 226%Z) extra
    | _ => outs st' = (zero, zero, zero) /\
           extra = [mkFatal 225 "unsupported table order" (zero, zero, zero)]
    end.
Proof.
  intros av.
  destruct st as [[[o1 o2] o3] fs].
  unfold findAxisValues, qbind at 1; simpl; rewrite Ht.
  destruct (tm_order tbl) as [|[p|p|]|p] eqn:Ho.
  - eexists _, []. rewrite app_nil_r. repeat split; reflexivity.
  - (* orders 3 and 2p+1 >= 5 *)
    destruct p as [[]|[]|];
      try (eexists _, _; split; [reflexivity|]; split; [reflexivity|]; split; reflexivity).
    destruct (H1 ltac:(lia)) as [a1 E1], (H2 ltac:(lia)) as [a2 E2],
      (H3 eq_refl) as [a3 E3].
    subst av. simpl. rewrite E1, E2, E3, !axisValue_Some.
    rewrite qbind_axisValue; cbn [outs fatals]; rewrite qbind_set1.
    rewrite qbind_axisValue; cbn [outs fatals]; rewrite qbind_set2.
    rewrite qbind_axisValue; cbn [outs fatals]. rewrite set3_run.
    eexists _, _. split; [reflexivity|]. split; [by rewrite <- !app_assoc|].
    split; [reflexivity|].
    repeat (apply Forall_app; split); apply axis_fatals_226.
  - (* orders 2 and 2p >= 4 *)
    destruct p as [p|p|];
      try (eexists _, _; split; [reflexivity|]; split; [reflexivity|]; split; reflexivity).
    destruct (H1 ltac:(lia)) as [a1 E1], (H2 ltac:(lia)) as [a2 E2].
    subst av. simpl. rewrite E1, E2, !axisValue_Some.
    rewrite qbind_axisValue; cbn [outs fatals]; rewrite qbind_set1.
    rewrite qbind_axisValue; cbn [outs fatals]; rewrite qbind_set2.
    eexists _, _. split; [reflexivity|]. split; [by rewrite <- !app_assoc|].
    split; [reflexivity|].
    repeat (apply Forall_app; split); apply axis_fatals_226.
  - (* order 1 *)
    destruct (H1 ltac:(lia)) as [a1 E1].
    subst av. simpl. rewrite E1, !axisValue_Some.
    rewrite qbind_axisValue; simpl.
    eexists _, _. split; [reflexivity|]. split; [reflexivity|].
    split; [reflexivity|]. apply axis_fatals_226.
  - (* negative orders *)
    eexists _, _; split; [reflexivity|]; split; [reflexivity|]; split; reflexivity.
Qed.

Lemma qbind_Ret {A B} (m : Q A) (k : A -> Q B) h st st' a :
  m h st = (st', Ret a) -> qbind m k h st = k a h st'.
Proof. intros E. unfold qbind. by rewrite E. Qed.

Lemma qbind_Abort {A B} (m : Q A) (k : A -> Q B) h st st' c :
  m h st = (st', Abort c) -> qbind m k h st = (st', Abort c).
Proof. intros E. unfold qbind. by rewrite E. Qed.

(** A computation that never aborts on a null wrapped table. *)
Definition no_null_table {A} (m : Q A) : Prop :=
  forall h st, snd (m h st) <> Abort NullTable.

Lemma nnt_ret {A} (a : A) : no_null_table (qret a).
Proof. by intros h st. Qed.

Lemma nnt_bind {A B} (m : Q A) (k : A -> Q B) :
  no_null_table m -> (forall a, no_null_table (k a)) -> no_null_table (qbind m k).
Proof.
  intros Hm Hk h st. unfold qbind.
  specialize (Hm h st). destruct (m h st) as [st' [a|c]]; [apply Hk|]; simpl in *; intros [= ->]; by apply Hm.
Qed.

Lemma nnt_abort {A} (c : Crash) : c <> NullTable -> no_null_table (@qabort A c).
Proof. intros Hc h st [= ->]. done. Qed.

Lemma nnt_criticalError id msg : no_null_table (criticalError id msg).
Proof. by intros h st. Qed.

Lemma nnt_set1 v : no_null_table (set_axis_value1 v).
Proof. intros h [[[o1 o2] o3] fs]. done. Qed.
Lemma nnt_set2 v : no_null_table (set_axis_value2 v).
Proof. intros h [[[o1 o2] o3] fs]. done. Qed.
Lemma nnt_set3 v : no_null_table (set_axis_value3 v).
Proof. intros h [[[o1 o2] o3] fs]. done. Qed.

Lemma nnt_get_outs : no_null_table get_outs.
Proof. by intros h st. Qed.

Lemma nnt_deref_table (t : loc) : no_null_table (deref_table (Some t)).
Proof. intros h st. simpl. by destruct (h !! t) as [[]|]. Qed.

Lemma nnt_deref_power_model (l : loc) : no_null_table (deref_power_model l).
Proof. intros h st. unfold deref_power_model. by destruct (h !! l) as [[]|]. Qed.

Lemma nnt_deref_port (l : loc) : no_null_table (deref_port l).
Proof. intros h st. unfold deref_port. by destruct (h !! l) as [[]|]. Qed.

Create HintDb nnt.
#[local] Hint Resolve nnt_ret nnt_criticalError nnt_set1 nnt_set2 nnt_set3
  nnt_get_outs nnt_deref_table nnt_deref_power_model nnt_deref_port : nnt.

Ltac nnt_step :=
  match goal with
  | |- no_null_table (qbind _ _) => apply nnt_bind; [|intros ?]
  | |- no_null_table (qabort _) => apply nnt_abort; discriminate
  | |- no_null_table (match ?x with _ => _ end) => destruct x
  | |- no_null_table (if ?c then _ else _) => destruct c
  | |- no_null_table _ => solve [eauto with nnt]
  end.

Lemma nnt_axisValue ax s l : no_null_table (axisValue ax s l).
Proof. unfold axisValue. repeat nnt_step. Qed.
#[local] Hint Resolve nnt_axisValue : nnt.

Lemma nnt_findAxisValues (t : loc) s l : no_null_table (findAxisValues (Some t) s l).
Proof. unfold findAxisValues. repeat nnt_step. Qed.
#[local] Hint Resolve nnt_findAxisValues : nnt.

(** C3: for an edge whose model slot is null, [InternalPower::power]
    returns 0.0 and raises nothing (state unchanged); otherwise it delegates
    to that edge's [InternalPowerModel::power] with the owning cell (the
    port's cell), the corner, [in_slew] and [load_cap] unchanged. *)
Theorem InternalPower_power_spec
  (findValue : TableModel -> loc -> option loc -> float -> float -> float -> float)
  (ip : InternalPower) (rf : RiseFall) (pvt : option loc)
  (in_slew load_cap : float) (h : gmap loc obj) (st : QState) :
  (slot rf (models_ ip) = None ->
     InternalPower_power findValue ip rf pvt in_slew load_cap h st = (st, Ret zero)) /\
  (forall (ml : loc) (m : InternalPowerModel) (p : LibertyPort),
     slot rf (models_ ip) = Some ml ->
     h !! ml = Some (OPowerModel m) ->
     h !! port_ ip = Some (OPort p) ->
     InternalPower_power findValue ip rf pvt in_slew load_cap h st =
     InternalPowerModel_power findValue m (port_liberty_cell p) pvt in_slew load_cap h st).
Proof.
  unfold InternalPower_power. split.
  - intros ->. reflexivity.
  - intros ml m p -> Hm Hp.
    cbv [qbind qret deref_power_model libertyCell deref_port].
    rewrite Hm, Hp. reflexivity.
Qed.

(** C4: when the wrapped table is null, [InternalPowerModel::power] returns
    0.0 and [reportPower] returns the empty string, with nothing raised; when
    it is present, both first run [findAxisValues] and hand the three
    resolved axis values to the table engine ([findValue], [reportValue]),
    and an abort in [findAxisValues] is theirs. *)
Theorem InternalPowerModel_power_report_spec
  (findValue : TableModel -> loc -> option loc -> float -> float -> float -> float)
  (reportValue : string -> TableModel -> loc -> option loc -> float ->
                 option string -> float -> float -> string -> Z -> string)
  (cellPowerUnit : loc -> string)
  (m : InternalPowerModel) (cell : loc) (pvt : option loc)
  (in_slew load_cap : float) (digits : Z) (h : gmap loc obj) (st : QState) :
  (model_ m = None ->
     InternalPowerModel_power findValue m cell pvt in_slew load_cap h st = (st, Ret zero) /\
     InternalPowerModel_reportPower reportValue cellPowerUnit m cell pvt in_slew load_cap
       digits h st = (st, Ret ""%string)) /\
  (forall (t : loc) (tbl : TableModel) (st' : QState),
     model_ m = Some t -> h !! t = Some (OTable tbl) ->
     findAxisValues (Some t) in_slew load_cap h st = (st', Ret tt) ->
     let '(v1, v2, v3) := outs st' in
     InternalPowerModel_power findValue m cell pvt in_slew load_cap h st =
       (st', Ret (findValue tbl cell pvt v1 v2 v3)) /\
     InternalPowerModel_reportPower reportValue cellPowerUnit m cell pvt in_slew load_cap
       digits h st =
       (st', Ret (reportValue "Power" tbl cell pvt v1 None v2 v3 (cellPowerUnit cell) digits))) /\
  (forall (t : loc) (st' : QState) (c : Crash),
     model_ m = Some t ->
     findAxisValues (Some t) in_slew load_cap h st = (st', Abort c) ->
     InternalPowerModel_power findValue m cell pvt in_slew load_cap h st = (st', Abort c) /\
     InternalPowerModel_reportPower reportValue cellPowerUnit m cell pvt in_slew load_cap
       digits h st = (st', Abort c)).
Proof.
  unfold InternalPowerModel_power, InternalPowerModel_reportPower.
  split; [|split].
  - intros ->. split; reflexivity.
  - intros t tbl st' -> Ht Hf.
    destruct st' as [[[v1 v2] v3] fs]. simpl.
    split; rewrite (qbind_Ret _ _ _ _ _ _ Hf); cbv [qbind deref_table get_outs qret];
      rewrite Ht; reflexivity.
  - intros t st' c -> Hf.
    split; apply (qbind_Abort _ _ _ _ _ _ Hf).
Qed.

(** C10: [findAxisValues] has no null check of its own (on a null table it
    aborts), but neither [InternalPowerModel::power], nor [reportPower], nor
    [InternalPower::power] ever aborts on a null wrapped table. *)
Theorem null_table_unreachable_from_queries
  (findValue : TableModel -> loc -> option loc -> float -> float -> float -> float)
  (reportValue : string -> TableModel -> loc -> option loc -> float ->
                 option string -> float -> float -> string -> Z -> string)
  (cellPowerUnit : loc -> string) :
  (forall in_slew load_cap h st,
     findAxisValues None in_slew load_cap h st = (st, Abort NullTable)) /\
  (forall m cell pvt in_slew load_cap,
     no_null_table (InternalPowerModel_power findValue m cell pvt in_slew load_cap)) /\
  (forall m cell pvt in_slew load_cap digits,
     no_null_table (InternalPowerModel_reportPower reportValue cellPowerUnit
                      m cell pvt in_slew load_cap digits)) /\
  (forall ip rf pvt in_slew load_cap,
     no_null_table (InternalPower_power findValue ip rf pvt in_slew load_cap)).
Proof.
  assert (Hp : forall m cell pvt in_slew load_cap,
    no_null_table (InternalPowerModel_power findValue m cell pvt in_slew load_cap)).
  { intros [[t|]] cell pvt s l; unfold InternalPowerModel_power; simpl;
      repeat nnt_step. }
  split; [|split; [exact Hp|split]].
  - reflexivity.
  - intros [[t|]] cell pvt s l digits; unfold InternalPowerModel_reportPower; simpl;
      repeat nnt_step.
  - intros ip rf pvt s l. unfold InternalPower_power, libertyCell.
    repeat nnt_step; apply Hp.
Qed.

(** [frees H H' fr]: going from [H] to [H'] released exactly the locations
    [fr], each once, each live in [H], and changed nothing else. *)
Definition frees (H H' : Heap) (fr : list loc) : Prop :=
  freed H' = freed H ++ fr /\ NoDup fr /\
  (forall l, l ∈ fr -> is_Some (hp H !! l) /\ hp H' !! l = None) /\
  (forall l, l ∉ fr -> hp H' !! l = hp H !! l).

Lemma frees_nil (H : Heap) : frees H H [].
Proof.
  split; [by rewrite app_nil_r|]. split; [constructor|].
  split; [by intros l ?%elem_of_nil|done].
Qed.

Lemma frees_free (l : loc) (H H' : Heap) :
  free l H = Some H' -> frees H H' [l].
Proof.
  unfold free. destruct (hp H !! l) eqn:E; [|done]. intros [= <-].
  split; [done|]. split; [apply NoDup_singleton|]. split.
  - intros l' ->%list_elem_of_singleton. simpl. split; [done|].
    by rewrite lookup_delete_eq.
  - intros l' Hl. simpl. rewrite lookup_delete_ne; [done|].
    intros ->. apply Hl. by left.
Qed.

Lemma frees_trans (H1 H2 H3 : Heap) f1 f2 :
  frees H1 H2 f1 -> frees H2 H3 f2 -> frees H1 H3 (f1 ++ f2).
Proof.
  intros (E1 & N1 & D1 & F1) (E2 & N2 & D2 & F2).
  split; [by rewrite E2, E1, app_assoc|].
  split.
  - apply NoDup_app. split; [done|]. split; [|done].
    intros l Hl1 Hl2. destruct (D1 l Hl1) as [_ Hn]. destruct (D2 l Hl2) as [Hs _].
    rewrite Hn in Hs. by destruct Hs.
  - split.
    + intros l [Hl|Hl]%elem_of_app.
      * destruct (D1 l Hl) as [Hs Hn]. split; [done|].
        destruct (decide (l ∈ f2)) as [Hl2|Hl2]; [by apply D2|].
        by rewrite F2, Hn.
      * destruct (D2 l Hl) as [Hs Hn]. split; [|done].
        destruct (decide (l ∈ f1)) as [Hl1|Hl1].
        -- destruct (D1 l Hl1) as [_ Hn1]. rewrite Hn1 in Hs. by destruct Hs.
        -- by rewrite <- F1.
    + intros l Hl. rewrite not_elem_of_app in Hl. destruct Hl as [Hl1 Hl2].
      by rewrite F2, F1.
Qed.

(** The locations [delete] of a power-model pointer releases: the table,
    then the model object. *)
Definition model_frees (h : gmap loc obj) (p : option loc) : list loc :=
  match p with
  | Some ml =>
      match h !! ml with
      | Some (OPowerModel m) => option_list (model_ m) ++ [ml]
      | _ => []
      end
  | None => []
  end.

(** A live power model whose table pointer, when set, is a live table. *)
Definition live_model (h : gmap loc obj) (ml : loc) : Prop :=
  exists m, h !! ml = Some (OPowerModel m) /\
    forall t, model_ m = Some t -> exists tb, h !! t = Some (OTable tb).

Lemma delete_power_model_frees (H : Heap) (p : option loc) :
  (forall ml, p = Some ml -> live_model (hp H) ml) ->
  exists H', delete_power_model p H = Some H' /\ frees H H' (model_frees (hp H) p).
Proof.
  intros Hl. destruct p as [ml|]; [|exists H; split; [done|apply frees_nil]].
  destruct (Hl ml eq_refl) as (m & Hm & Ht).
  assert (Fm : forall H1, hp H1 !! ml = Some (OPowerModel m) ->
    free ml H1 = Some (mkHeap (delete ml (hp H1)) (freed H1 ++ [ml]))).
  { intros H1 E. unfold free. by rewrite E. }
  cbn [delete_power_model model_frees]. rewrite Hm.
  destruct (model_ m) as [t|] eqn:Em.
  - destruct (Ht t eq_refl) as [tb Htb].
    set (H1 := mkHeap (delete t (hp H)) (freed H ++ [t])).
    assert (F1 : free t H = Some H1) by (unfold free; by rewrite Htb).
    assert (Hml : hp H1 !! ml = Some (OPowerModel m)).
    { simpl. rewrite lookup_delete_ne; [done|]. intros ->. congruence. }
    cbn [delete_table]. rewrite F1. cbn [mbind option_bind].
    eexists; split; [apply (Fm _ Hml)|].
    apply (frees_trans _ H1); [by apply frees_free|].
    apply frees_free. by apply Fm.
  - cbn [delete_table mbind option_bind option_list app].
    eexists; split; [apply (Fm _ Hm)|].
    apply frees_free. by apply Fm.
Qed.

Definition model_or_table (o : obj) : Prop :=
  match o with OPowerModel _ | OTable _ => True | _ => False end.

Lemma model_frees_kind (h : gmap loc obj) (p : option loc) (l : loc) :
  (forall ml, p = Some ml -> live_model h ml) ->
  l ∈ model_frees h p -> exists o, h !! l = Some o /\ model_or_table o.
Proof.
  intros Hl Hin. destruct p as [ml|]; [|by apply elem_of_nil in Hin].
  destruct (Hl ml eq_refl) as (m & Hm & Ht).
  unfold model_frees in Hin. rewrite Hm in Hin.
  rewrite elem_of_app in Hin; destruct Hin as [Hin | ->%list_elem_of_singleton].
  - destruct (model_ m) as [t|] eqn:Em; [|by apply elem_of_nil in Hin].
    apply list_elem_of_singleton in Hin as ->.
    destruct (Ht t eq_refl) as [tb Htb]. by exists (OTable tb).
  - by exists (OPowerModel m).
Qed.

Lemma frees_frame (H H' : Heap) fr l :
  frees H H' fr -> l ∉ fr -> hp H' !! l = hp H !! l.
Proof. intros (_ & _ & _ & F) Hl. by apply F. Qed.

Lemma deleteContents_frees (a : InternalPowerAttrs) (H : Heap) :
  (forall rf ml, slot rf (attrs_models_ a) = Some ml -> live_model (hp H) ml) ->
  (forall ml1 ml2 m1 m2 t,
     slot rise (attrs_models_ a) = Some ml1 -> slot fall (attrs_models_ a) = Some ml2 ->
     ml1 <> ml2 ->
     hp H !! ml1 = Some (OPowerModel m1) -> hp H !! ml2 = Some (OPowerModel m2) ->
     model_ m1 = Some t -> model_ m2 <> Some t) ->
  (forall e, attrs_when_ a = Some e -> exists f, hp H !! e = Some (OExpr f)) ->
  (forall s, attrs_related_pg_pin_ a = Some s -> exists str, hp H !! s = Some (OString str)) ->
  exists H', deleteContents a H = Some H' /\
    frees H H'
      (model_frees (hp H) (slot rise (attrs_models_ a)) ++
       (if decide (slot fall (attrs_models_ a) <> slot rise (attrs_models_ a))
        then model_frees (hp H) (slot fall (attrs_models_ a)) else []) ++
       option_list (attrs_when_ a) ++ option_list (attrs_related_pg_pin_ a)).
Proof.
  destruct a as [w [r f] pg]; cbn [slot attrs_models_ slot_rise slot_fall
    attrs_when_ attrs_related_pg_pin_].
  intros Hlive Hexcl Hw Hpg.
  (* rise model *)
  destruct (delete_power_model_frees H r (Hlive rise)) as (H1 & D1 & F1).
  (* fall model, unless it is the rise model *)
  assert (Hstep2 : exists H2,
    (if decide (f <> r) then delete_power_model f H1 else Some H1) = Some H2 /\
    frees H1 H2 (if decide (f <> r) then model_frees (hp H) f else [])).
  { destruct (decide (f <> r)) as [Hne|Heq]; [|exists H1; split; [done|apply frees_nil]].
    destruct f as [ml2|]; [|exists H1; split; [done|apply frees_nil]].
    destruct (Hlive fall ml2 eq_refl) as (m2 & Hm2 & Ht2).
    assert (Nml2 : ml2 ∉ model_frees (hp H) r).
    { intros Hin. destruct r as [ml1|]; [|by apply elem_of_nil in Hin].
      destruct (Hlive rise ml1 eq_refl) as (m1 & Hm1 & Ht1).
      unfold model_frees in Hin. rewrite Hm1 in Hin.
      rewrite elem_of_app in Hin; destruct Hin as [Hin | ->%list_elem_of_singleton]; [|done].
      destruct (model_ m1) as [t1|] eqn:E1; [|by apply elem_of_nil in Hin].
      apply list_elem_of_singleton in Hin. subst t1.
      destruct (Ht1 ml2 eq_refl) as [tb Htb]. congruence. }
    assert (Hm2' : hp H1 !! ml2 = Some (OPowerModel m2)).
    { by rewrite (frees_frame _ _ _ _ F1 Nml2). }
    assert (Hlive2 : live_model (hp H1) ml2).
    { exists m2. split; [done|]. intros t2 Et2.
      destruct (Ht2 t2 Et2) as [tb Htb]. exists tb.
      rewrite (frees_frame _ _ _ _ F1); [done|].
      intros Hin. destruct r as [ml1|]; [|by apply elem_of_nil in Hin].
      destruct (Hlive rise ml1 eq_refl) as (m1 & Hm1 & Ht1).
      unfold model_frees in Hin. rewrite Hm1 in Hin.
      rewrite elem_of_app in Hin; destruct Hin as [Hin | ->%list_elem_of_singleton]; [|congruence].
      destruct (model_ m1) as [t1|] eqn:E1; [|by apply elem_of_nil in Hin].
      apply list_elem_of_singleton in Hin. subst t1.
      apply (Hexcl ml1 ml2 m1 m2 t2); try done. congruence. }
    destruct (delete_power_model_frees H1 (Some ml2)) as (H2 & D2 & F2).
    { by intros ? [= <-]. }
    exists H2. split; [done|].
    replace (model_frees (hp H) (Some ml2)) with (model_frees (hp H1) (Some ml2)); [done|].
    simpl. by rewrite Hm2, Hm2'. }
  destruct Hstep2 as (H2 & D2 & F2).
  set (fr12 := model_frees (hp H) r ++
         (if decide (f <> r) then model_frees (hp H) f else [])).
  assert (F12 : frees H H2 fr12) by (by apply (frees_trans _ H1)).
  assert (Nkind : forall l o, hp H !! l = Some o -> ~ model_or_table o -> l ∉ fr12).
  { intros l o Ho Hk Hin. unfold fr12 in Hin. rewrite elem_of_app in Hin; destruct Hin as [Hin|Hin].
    - destruct (model_frees_kind _ r l (Hlive rise) Hin) as (o' & Ho' & Hk'). congruence.
    - destruct (decide (f <> r)); [|by apply elem_of_nil in Hin].
      destruct (model_frees_kind _ f l (Hlive fall) Hin) as (o' & Ho' & Hk'). congruence. }
  (* condition expression *)
  assert (Hstep3 : exists H3,
    match w with Some e => deleteSubexprs e H2 | None => Some H2 end = Some H3 /\
    frees H2 H3 (option_list w)).
  { destruct w as [e|]; [|exists H2; split; [done|apply frees_nil]].
    destruct (Hw e eq_refl) as [fe He].
    assert (He2 : hp H2 !! e = Some (OExpr fe)).
    { rewrite (frees_frame _ _ _ _ F12); [done|]. apply (Nkind e _ He). intros []. }
    eexists. split.
    - unfold deleteSubexprs. rewrite He2. unfold free. rewrite He2. reflexivity.
    - apply frees_free. unfold free. rewrite He2. reflexivity. }
  destruct Hstep3 as (H3 & D3 & F3).
  assert (F123 : frees H H3 (fr12 ++ option_list w)) by (by apply (frees_trans _ H2)).
  (* pg-pin string *)
  assert (Hstep4 : exists H4,
    stringDelete pg H3 = Some H4 /\ frees H3 H4 (option_list pg)).
  { destruct pg as [s|]; [|exists H3; split; [done|apply frees_nil]].
    destruct (Hpg s eq_refl) as [str Hs].
    assert (Hs3 : hp H3 !! s = Some (OString str)).
    { rewrite (frees_frame _ _ _ _ F123); [done|].
      rewrite not_elem_of_app. split; [apply (Nkind s _ Hs); intros []|].
      destruct w as [e|]; [|apply not_elem_of_nil].
      destruct (Hw e eq_refl) as [fe He].
      intros ->%list_elem_of_singleton. congruence. }
    eexists. split.
    - simpl. unfold free. rewrite Hs3. reflexivity.
    - apply frees_free. unfold free. rewrite Hs3. reflexivity. }
  destruct Hstep4 as (H4 & D4 & F4).
  exists H4. split.
  - unfold deleteContents. cbn [slot attrs_models_ slot_rise slot_fall
      attrs_when_ attrs_related_pg_pin_].
    rewrite D1. cbn [mbind option_bind]. rewrite D2. cbn [mbind option_bind].
    rewrite D3. cbn [mbind option_bind]. exact D4.
  - rewrite !app_assoc. fold fr12. by apply (frees_trans _ H3).
Qed.

(** C6: on a builder whose model slots hold live models (each exclusively
    owning its table, the two slots possibly holding one same model), whose
    condition expression and pg-pin string are live when set,
    [deleteContents] releases without any invalid or double free exactly
    the objects the builder owns, each exactly once: the model in each slot
    (one release when both slots hold the same model, one each when they
    differ) with its table, the condition expression only when present, and
    the pg-pin string only when present; nothing else changes. *)
Theorem deleteContents_releases_each_once (a : InternalPowerAttrs) (H : Heap)
  (Hlive : forall rf ml, slot rf (attrs_models_ a) = Some ml -> live_model (hp H) ml)
  (Hexcl : forall ml1 ml2 m1 m2 t,
     slot rise (attrs_models_ a) = Some ml1 -> slot fall (attrs_models_ a) = Some ml2 ->
     ml1 <> ml2 ->
     hp H !! ml1 = Some (OPowerModel m1) -> hp H !! ml2 = Some (OPowerModel m2) ->
     model_ m1 = Some t -> model_ m2 <> Some t)
  (Hw : forall e, attrs_when_ a = Some e -> exists f, hp H !! e = Some (OExpr f))
  (Hpg : forall s, attrs_related_pg_pin_ a = Some s ->
     exists str, hp H !! s = Some (OString str)) :
  let owned (l : loc) :=
    (exists rf, slot rf (attrs_models_ a) = Some l) \/
    (exists rf ml m, slot rf (attrs_models_ a) = Some ml /\
       hp H !! ml = Some (OPowerModel m) /\ model_ m = Some l) \/
    attrs_when_ a = Some l \/ attrs_related_pg_pin_ a = Some l in
  exists H' fr,
    deleteContents a H = Some H' /\
    freed H' = freed H ++ fr /\ NoDup fr /\
    (forall l, l ∈ fr <-> owned l) /\
    (forall l, l ∉ fr -> hp H' !! l = hp H !! l).
Proof.
  intros owned.
  destruct (deleteContents_frees a H Hlive Hexcl Hw Hpg) as (H' & D & F0).
  destruct F0 as (E & N & _ & F).
  eexists H', _. split; [exact D|]. split; [exact E|]. split; [exact N|].
  split; [|exact F].
  intros l. subst owned. cbv beta.
  destruct a as [w [r f] pg]; cbn [slot attrs_models_ slot_rise slot_fall
    attrs_when_ attrs_related_pg_pin_] in *.
  assert (Hrf1 : (exists rf, slot rf (mkModelSlots r f) = Some l) <->
                 r = Some l \/ f = Some l).
  { split; [intros [[] ?]; auto|intros [?|?]; [exists rise|exists fall]; done]. }
  assert (Hrf3 : (exists rf ml m, slot rf (mkModelSlots r f) = Some ml /\
                    hp H !! ml = Some (OPowerModel m) /\ model_ m = Some l) <->
    (exists ml m, r = Some ml /\ hp H !! ml = Some (OPowerModel m) /\ model_ m = Some l) \/
    (exists ml m, f = Some ml /\ hp H !! ml = Some (OPowerModel m) /\ model_ m = Some l)).
  { split; [intros [[] ?]; auto
           |intros [?|?]; [exists rise|exists fall]; done]. }
  rewrite Hrf1, Hrf3.
  rewrite !elem_of_app.
  assert (Hw' : l ∈ option_list w <-> w = Some l).
  { destruct w; simpl; rewrite ?list_elem_of_singleton, ?elem_of_nil; naive_solver. }
  assert (Hpg' : l ∈ option_list pg <-> pg = Some l).
  { destruct pg; simpl; rewrite ?list_elem_of_singleton, ?elem_of_nil; naive_solver. }
  rewrite Hw', Hpg'.
  assert (Hmf : forall p, (forall ml, p = Some ml -> live_model (hp H) ml) ->
    (l ∈ model_frees (hp H) p <->
     p = Some l \/ exists ml m, p = Some ml /\ hp H !! ml = Some (OPowerModel m) /\
                               model_ m = Some l)).
  { intros [ml|] Hl; simpl.
    - destruct (Hl ml eq_refl) as (m & Hm & _). rewrite Hm, elem_of_app.
      destruct (model_ m) as [t|] eqn:Em; simpl;
        rewrite ?list_elem_of_singleton, ?elem_of_nil; naive_solver.
    - rewrite elem_of_nil. naive_solver. }
  rewrite (Hmf r (Hlive rise)).
  destruct (decide (f <> r)) as [Hne|Heq].
  - rewrite (Hmf f (Hlive fall)). naive_solver.
  - apply dec_stable in Heq. subst f. rewrite elem_of_nil. naive_solver.
Qed.

(** C7: constructing a Power Record in fresh storage [self] from a live
    builder and a live owning cell stores a record whose ports are the given
    port pointers and whose condition expression, two model pointers and
    pg-pin pointer are the builder's own (reference copies); the only other
    change is the record appended to the cell's internal-power list: nothing
    is released, and the builder and every other object are left as they
    were. *)
Theorem InternalPower_ctor_spec (self cell port related_port attrs : loc)
  (a : InternalPowerAttrs) (c : LibertyCell) (H : Heap)
  (Ha : hp H !! attrs = Some (OAttrs a))
  (Hc : hp H !! cell = Some (OCell c))
  (Hself : hp H !! self = None) :
  InternalPower_ctor self cell port related_port attrs H =
  Some (mkHeap
    (<[cell := OCell (mkLibertyCell (internal_powers_ c ++ [self]))]>
     (<[self := OPower (mkInternalPower port related_port (attrs_when_ a)
                          (attrs_models_ a) (attrs_related_pg_pin_ a))]> (hp H)))
    (freed H)).
Proof.
  unfold InternalPower_ctor. rewrite Ha.
  assert (Hne : self <> cell) by (intros ->; congruence).
  unfold addInternalPower. simpl.
  rewrite lookup_insert_ne by congruence. rewrite Hc.
  by destruct a as [w [r f] pg].
Qed.

(** C8: destroying a Power Record ([delete] of a live record) releases only
    the record's own storage: its condition expression, both models and its
    pg-pin string, like every other object, are neither released nor
    changed. *)
Theorem delete_internal_power_keeps_resources (p : loc) (ip : InternalPower) (H : Heap)
  (Hp : hp H !! p = Some (OPower ip)) :
  exists H',
    delete_internal_power p H = Some H' /\
    freed H' = freed H ++ [p] /\
    (forall l, l <> p -> hp H' !! l = hp H !! l) /\
    (forall l, (when_ ip = Some l \/ slot rise (models_ ip) = Some l \/
                slot fall (models_ ip) = Some l \/ related_pg_pin_ ip = Some l) ->
       l <> p -> hp H' !! l = hp H !! l).
Proof.
  unfold delete_internal_power. rewrite Hp.
  destruct (frees_free p H (mkHeap (delete p (hp H)) (freed H ++ [p]))) as (E & _ & _ & F).
  { unfold free. by rewrite Hp. }
  eexists. split; [unfold free; rewrite Hp; reflexivity|].
  split; [exact E|].
  assert (Fr : forall l, l <> p -> hp (mkHeap (delete p (hp H)) (freed H ++ [p])) !! l = hp H !! l).
  { intros l Hl. apply F. by intros ->%list_elem_of_singleton. }
  split; [exact Fr|].
  intros l _ Hl. by apply Fr.
Qed.

(** C9: destroying a builder ([delete] of a live [InternalPowerAttrs],
    whatever its fields hold, also after they were handed to a Power
    Record) never fails and releases only the builder's own storage: its
    condition expression, models and pg-pin string are neither released nor
    changed; they are released only by [deleteContents]. *)
Theorem delete_attrs_keeps_fields (p : loc) (a : InternalPowerAttrs) (H : Heap)
  (Hp : hp H !! p = Some (OAttrs a)) :
  exists H',
    delete_attrs p H = Some H' /\
    freed H' = freed H ++ [p] /\
    (forall l, l <> p -> hp H' !! l = hp H !! l).
Proof.
  unfold delete_attrs. rewrite Hp.
  destruct (frees_free p H (mkHeap (delete p (hp H)) (freed H ++ [p]))) as (E & _ & _ & F).
  { unfold free. by rewrite Hp. }
  eexists. split; [unfold free; rewrite Hp; reflexivity|].
  split; [exact E|].
  intros l Hl. apply F. by intros ->%list_elem_of_singleton.
Qed.

(** ** Witnesses: each theorem with hypotheses applied at a concrete input *)

Definition tbl2 : TableModel := mkTableModel 2 (Some ax_slew) (Some ax_load) None [].
Definition heap1 : gmap loc obj := {[ 1%positive := OTable tbl2 ]}.

Lemma findAxisValues_dispatch_witness :
  heap1 !! 1%positive = Some (OTable tbl2) /\
  exists st' extra,
    findAxisValues (Some 1%positive) 0.75%float 3.25%float heap1 st0 = (st', Ret tt) /\
    fatals st' = fatals st0 ++ extra /\
    outs st' = (0.75%float, 3.25%float, zero) /\
    Forall (fun f => fatal_id f = 226%Z) extra.
Proof.
  split; [reflexivity|].
  exact (findAxisValues_dispatch heap1 1%positive tbl2 0.75%float 3.25%float st0
           eq_refl (fun _ => ex_intro _ ax_slew eq_refl)
           (fun _ => ex_intro _ ax_load eq_refl)
           (fun E => ltac:(discriminate E))).
Defined.

(** A builder whose two slots share one model (at 2, owning the table at 3),
    with a condition expression (4) and a pg-pin string (5). *)
Definition attrs6 : InternalPowerAttrs :=
  mkInternalPowerAttrs (Some 4%positive) (mkModelSlots (Some 2%positive) (Some 2%positive))
    (Some 5%positive).
Definition heap6 : Heap :=
  mkHeap {[ 2%positive := OPowerModel (mkInternalPowerModel (Some 3%positive));
            3%positive := OTable tbl2;
            4%positive := OExpr FuncOne;
            5%positive := OString "VDD" ]} [].

Lemma deleteContents_releases_each_once_witness :
  exists H' fr,
    deleteContents attrs6 heap6 = Some H' /\ freed H' = fr /\ NoDup fr /\
    2%positive ∈ fr /\ 3%positive ∈ fr /\ 4%positive ∈ fr /\ 5%positive ∈ fr.
Proof.
  destruct (deleteContents_releases_each_once attrs6 heap6) as (H' & fr & D & E & N & M & _).
  - intros [] ml [= <-]; exists (mkInternalPowerModel (Some 3%positive));
      (split; [reflexivity|]); intros t [= <-]; eexists; reflexivity.
  - intros ml1 ml2 m1 m2 t [= <-] [= <-] Hne. congruence.
  - intros e [= <-]. eexists; reflexivity.
  - intros s [= <-]. eexists; reflexivity.
  - exists H', fr. split; [exact D|]. split; [exact E|]. split; [exact N|].
    split; [apply M; left; exists rise; reflexivity|].
    split; [apply M; right; left; exists rise, 2%positive,
              (mkInternalPowerModel (Some 3%positive)); repeat split|].
    split; [apply M; right; right; left; reflexivity|].
    apply M; right; right; right; reflexivity.
Defined.

Definition heap7 : Heap :=
  mkHeap {[ 1%positive := OAttrs attrs6; 6%positive := OCell (mkLibertyCell []) ]} [].

Lemma InternalPower_ctor_spec_witness :
  InternalPower_ctor 7%positive 6%positive 8%positive 9%positive 1%positive heap7 =
  Some (mkHeap
    (<[6%positive := OCell (mkLibertyCell [7%positive])]>
     (<[7%positive := OPower (mkInternalPower 8%positive 9%positive (Some 4%positive)
                     (mkModelSlots (Some 2%positive) (Some 2%positive)) (Some 5%positive))]>
      (hp heap7))) []).
Proof.
  exact (InternalPower_ctor_spec 7%positive 6%positive 8%positive 9%positive 1%positive
           attrs6 (mkLibertyCell []) heap7 eq_refl eq_refl eq_refl).
Defined.

Definition ip8 : InternalPower :=
  mkInternalPower 8%positive 9%positive (Some 4%positive)
    (mkModelSlots (Some 2%positive) None) (Some 5%positive).
Definition heap8 : Heap :=
  mkHeap (<[10%positive := OPower ip8]> (hp heap6)) [].

Lemma delete_internal_power_keeps_resources_witness :
  exists H',
    delete_internal_power 10%positive heap8 = Some H' /\
    freed H' = [10%positive] /\
    hp H' !! 2%positive = hp heap8 !! 2%positive.
Proof.
  destruct (delete_internal_power_keeps_resources 10%positive ip8 heap8 eq_refl)
    as (H' & D & E & F & _).
  exists H'. split; [exact D|]. split; [exact E|]. by apply F.
Defined.

Lemma delete_attrs_keeps_fields_witness :
  exists H',
    delete_attrs 1%positive heap7 = Some H' /\
    freed H' = [1%positive] /\
    hp H' !! 6%positive = hp heap7 !! 6%positive.
Proof.
  destruct (delete_attrs_keeps_fields 1%positive attrs6 heap7 eq_refl) as (H' & D & E & F).
  exists H'. split; [exact D|]. split; [exact E|]. by apply F.
Defined.

(** ** Further properties of the builder, the record and the model *)

Lemma update_attrs_spec (self : loc) (f : InternalPowerAttrs -> InternalPowerAttrs)
  (a : InternalPowerAttrs) (H : Heap) :
  hp H !! self = Some (OAttrs a) ->
  update_attrs self f H = Some (mkHeap (<[self := OAttrs (f a)]> (hp H)) (freed H)).
Proof. intros Ha. unfold update_attrs. by rewrite Ha. Qed.

Lemma fresh_none (m : gmap loc obj) : m !! fresh (dom m) = None.
Proof. apply not_elem_of_dom_1, is_fresh. Qed.

(** [setModel] then [model] is a round trip: the slot of the given edge
    holds the new model, the other edge's slot, the condition and the pg-pin
    are unchanged, nothing is released (a model previously in the slot is
    not deleted) and no other object changes. *)
Theorem setModel_model_roundtrip (self : loc) (a : InternalPowerAttrs) (H : Heap)
  (rf : RiseFall) (model : option loc)
  (Ha : hp H !! self = Some (OAttrs a)) :
  exists H' a',
    setModel self rf model H = Some H' /\
    freed H' = freed H /\
    (forall l, l <> self -> hp H' !! l = hp H !! l) /\
    hp H' !! self = Some (OAttrs a') /\
    attrs_model a' rf = model /\
    (forall rf', rf' <> rf -> attrs_model a' rf' = attrs_model a rf') /\
    attrs_when_ a' = attrs_when_ a /\
    attrs_related_pg_pin_ a' = attrs_related_pg_pin_ a.
Proof.
  unfold setModel. rewrite (update_attrs_spec _ _ _ _ Ha).
  eexists _, _. split; [reflexivity|]. split; [reflexivity|].
  split; [intros l Hl; simpl; by rewrite lookup_insert_ne by congruence|].
  split; [simpl; by rewrite lookup_insert_eq|].
  unfold attrs_model; simpl.
  split; [by destruct rf|].
  split; [|split; reflexivity].
  intros rf' Hrf. by destruct rf, rf'.
Qed.

(** [setWhen] stores the new condition and releases nothing: the builder's
    previous condition expression stays live and unchanged (it is not
    deleted), the models and pg-pin are kept, and no other object changes. *)
Theorem setWhen_releases_nothing (self : loc) (a : InternalPowerAttrs) (H : Heap)
  (when : option loc) (Ha : hp H !! self = Some (OAttrs a)) :
  exists H',
    setWhen self when H = Some H' /\
    freed H' = freed H /\
    hp H' !! self =
      Some (OAttrs (mkInternalPowerAttrs when (attrs_models_ a) (attrs_related_pg_pin_ a))) /\
    (forall l, l <> self -> hp H' !! l = hp H !! l).
Proof.
  unfold setWhen. rewrite (update_attrs_spec _ _ _ _ Ha).
  eexists. split; [reflexivity|]. split; [reflexivity|].
  split; [simpl; by rewrite lookup_insert_eq|].
  intros l Hl. simpl. by rewrite lookup_insert_ne by congruence.
Qed.

(** [setRelatedPgPin] with a live argument string other than the builder's
    own: the previous pg-pin string (if any) is released exactly once, the
    builder then holds a fresh copy of the argument (null for a null
    argument) in storage that held no other live object, its other fields
    are kept, and every other live object is unchanged. *)
Theorem setRelatedPgPin_replaces (self : loc) (a : InternalPowerAttrs) (H : Heap)
  (arg : option loc)
  (Ha : hp H !! self = Some (OAttrs a))
  (Hold : forall s, attrs_related_pg_pin_ a = Some s ->
            exists str, hp H !! s = Some (OString str))
  (Harg : forall l, arg = Some l ->
            attrs_related_pg_pin_ a <> Some l /\ exists str, hp H !! l = Some (OString str)) :
  exists H' a',
    setRelatedPgPin self arg H = Some H' /\
    freed H' = freed H ++ option_list (attrs_related_pg_pin_ a) /\
    hp H' !! self = Some (OAttrs a') /\
    attrs_when_ a' = attrs_when_ a /\ attrs_models_ a' = attrs_models_ a /\
    match arg with
    | None => attrs_related_pg_pin_ a' = None
    | Some l =>
        exists l', attrs_related_pg_pin_ a' = Some l' /\
          hp H' !! l' = hp H !! l /\
          (forall o, hp H !! l' = Some o -> attrs_related_pg_pin_ a = Some l')
    end /\
    (forall l o, hp H !! l = Some o -> l <> self ->
       attrs_related_pg_pin_ a <> Some l -> hp H' !! l = Some o).
Proof.
  unfold setRelatedPgPin. rewrite Ha.
  (* release of the old string *)
  assert (Hdel : exists H1, stringDelete (attrs_related_pg_pin_ a) H = Some H1 /\
    freed H1 = freed H ++ option_list (attrs_related_pg_pin_ a) /\
    (forall l, attrs_related_pg_pin_ a <> Some l -> hp H1 !! l = hp H !! l) /\
    (forall l, attrs_related_pg_pin_ a = Some l -> hp H1 !! l = None)).
  { destruct (attrs_related_pg_pin_ a) as [s|] eqn:Es.
    - destruct (Hold s eq_refl) as [str Hs].
      eexists. split; [unfold stringDelete, free; by rewrite Hs|].
      split; [reflexivity|]. simpl. split.
      + intros l Hl. rewrite lookup_delete_ne; congruence.
      + intros l [= <-]. apply lookup_delete_eq.
    - exists H. split; [done|]. split; [by rewrite app_nil_r|]. done. }
  destruct Hdel as (H1 & D1 & E1 & F1 & G1).
  rewrite D1. cbn [mbind option_bind].
  assert (Hself1 : hp H1 !! self = Some (OAttrs a)).
  { rewrite F1; [done|]. intros Es. destruct (Hold self Es). congruence. }
  destruct arg as [l|].
  - destruct (Harg l eq_refl) as [Hne [str Hl]].
    assert (Hl1 : hp H1 !! l = Some (OString str)) by (rewrite F1; done).
    set (l' := fresh (dom (hp H1))).
    assert (Hl' : hp H1 !! l' = None) by apply fresh_none.
    assert (Hne' : l' <> self) by (intros E; rewrite E in Hl'; congruence).
    unfold stringCopy. rewrite Hl1. fold l'. cbn [mbind option_bind].
    rewrite (update_attrs_spec self _ a) by
      (simpl; rewrite lookup_insert_ne by congruence; exact Hself1).
    eexists _, _. split; [reflexivity|]. split; [exact E1|].
    split; [simpl; by rewrite lookup_insert_eq|].
    split; [reflexivity|]. split; [reflexivity|]. split.
    + exists l'. split; [reflexivity|]. split.
      * simpl. rewrite lookup_insert_ne by congruence. rewrite lookup_insert_eq.
        by rewrite Hl.
      * intros o Ho. destruct (decide (attrs_related_pg_pin_ a = Some l')) as [E|E]; [done|].
        rewrite <- (F1 l' E) in Ho. congruence.
    + intros k o Hk Hks Hkp. simpl.
      rewrite lookup_insert_ne by congruence.
      assert (k <> l') by (intros ->; rewrite F1 in Hl' by done; congruence).
      rewrite lookup_insert_ne by congruence. by rewrite F1.
  - cbn [stringCopy mbind option_bind].
    rewrite (update_attrs_spec self _ a) by exact Hself1.
    eexists _, _. split; [reflexivity|]. split; [exact E1|].
    split; [simpl; by rewrite lookup_insert_eq|].
    split; [reflexivity|]. split; [reflexivity|]. split; [reflexivity|].
    intros k o Hk Hks Hkp. simpl.
    rewrite lookup_insert_ne by congruence. by rewrite F1.
Qed.

(** [setRelatedPgPin] given the builder's own current pg-pin string deletes
    it before copying it, so the copy reads released storage: the call is a
    use after free. *)
Theorem setRelatedPgPin_self_use_after_free (self s : loc) (a : InternalPowerAttrs)
  (str : string) (H : Heap)
  (Ha : hp H !! self = Some (OAttrs a))
  (Hs : attrs_related_pg_pin_ a = Some s)
  (Hstr : hp H !! s = Some (OString str)) :
  setRelatedPgPin self (Some s) H = None.
Proof.
  unfold setRelatedPgPin. rewrite Ha, Hs. simpl. unfold free. rewrite Hstr.
  simpl. by rewrite lookup_delete_eq.
Qed.

(** Releases only remove objects. *)
Definition shrinks (H H' : Heap) : Prop :=
  forall k, hp H !! k = None -> hp H' !! k = None.

Lemma free_gone (l : loc) (H H' : Heap) :
  free l H = Some H' -> hp H' !! l = None /\ shrinks H H'.
Proof.
  unfold free. destruct (hp H !! l); [|done]. intros [= <-]. simpl.
  split; [apply lookup_delete_eq|].
  intros k Hk. destruct (decide (k = l)) as [->|Hkl]; [apply lookup_delete_eq|].
  simpl. by rewrite lookup_delete_ne by congruence.
Qed.

Lemma shrinks_refl (H : Heap) : shrinks H H.
Proof. by intros k. Qed.

Lemma shrinks_trans (H1 H2 H3 : Heap) : shrinks H1 H2 -> shrinks H2 H3 -> shrinks H1 H3.
Proof. intros A B k Hk. by apply B, A. Qed.

Lemma delete_power_model_gone (p : option loc) (H H' : Heap) :
  delete_power_model p H = Some H' ->
  shrinks H H' /\ (forall ml, p = Some ml -> hp H' !! ml = None).
Proof.
  destruct p as [ml|]; simpl; [|intros [= <-]; split; [apply shrinks_refl|done]].
  destruct (hp H !! ml) as [[]|]; try done.
  destruct (model_ m) as [t|]; simpl.
  - destruct (free t H) as [H1|] eqn:F1; simpl; [|done]. intros F2.
    destruct (free_gone _ _ _ F1) as [_ S1], (free_gone _ _ _ F2) as [G2 S2].
    split; [by apply (shrinks_trans _ H1)|]. by intros ? [= <-].
  - intros F2. destruct (free_gone _ _ _ F2) as [G2 S2].
    split; [done|]. by intros ? [= <-].
Qed.

Lemma deleteSubexprs_gone (e : loc) (H H' : Heap) :
  deleteSubexprs e H = Some H' -> hp H' !! e = None /\ shrinks H H'.
Proof.
  unfold deleteSubexprs. destruct (hp H !! e) as [[]|]; try done. apply free_gone.
Qed.

Lemma stringDelete_gone (p : option loc) (H H' : Heap) :
  stringDelete p H = Some H' ->
  shrinks H H' /\ (forall s, p = Some s -> hp H' !! s = None).
Proof.
  destruct p as [s|]; simpl.
  - intros F. destruct (free_gone _ _ _ F). split; [done|]. by intros ? [= <-].
  - intros [= <-]. split; [apply shrinks_refl|done].
Qed.

(** After a successful [deleteContents], every object the builder points to
    directly (a model slot, the condition, the pg-pin) is released. *)
Lemma deleteContents_gone (a : InternalPowerAttrs) (H H' : Heap) :
  deleteContents a H = Some H' ->
  forall l, (exists rf, slot rf (attrs_models_ a) = Some l) \/
            attrs_when_ a = Some l \/ attrs_related_pg_pin_ a = Some l ->
  hp H' !! l = None.
Proof.
  destruct a as [w [r f] pg]. unfold deleteContents.
  cbn [slot attrs_models_ slot_rise slot_fall attrs_when_ attrs_related_pg_pin_].
  destruct (delete_power_model r H) as [H1|] eqn:D1; [|done]. cbn [mbind option_bind].
  destruct (if decide (f <> r) then delete_power_model f H1 else Some H1) as [H2|] eqn:D2;
    [|done]. cbn [mbind option_bind].
  destruct (match w with Some w0 => deleteSubexprs w0 H2 | None => Some H2 end)
    as [H3|] eqn:D3; [|done]. cbn [mbind option_bind]. intros D4.
  destruct (delete_power_model_gone _ _ _ D1) as [S1 G1].
  assert (S2 : shrinks H1 H2 /\ (f <> r -> forall ml, f = Some ml -> hp H2 !! ml = None)).
  { destruct (decide (f <> r)) as [Hne|Heq].
    - destruct (delete_power_model_gone _ _ _ D2) as [S G]. split; [done|]. auto.
    - injection D2 as <-. split; [apply shrinks_refl|done]. }
  destruct S2 as [S2 G2].
  assert (S3 : shrinks H2 H3 /\ (forall e, w = Some e -> hp H3 !! e = None)).
  { destruct w as [e|].
    - destruct (deleteSubexprs_gone _ _ _ D3) as [G S]. split; [done|]. by intros ? [= <-].
    - injection D3 as <-. split; [apply shrinks_refl|done]. }
  destruct S3 as [S3 G3].
  destruct (stringDelete_gone _ _ _ D4) as [S4 G4].
  intros l [[[] Hl]|[Hl|Hl]]; simpl in Hl.
  - apply S4, S3, S2, G1, Hl.
  - destruct (decide (f <> r)) as [Hne|Heq].
    + apply S4, S3, (G2 Hne), Hl.
    + apply dec_stable in Heq. subst f. apply S4, S3, S2, G1, Hl.
  - apply S4, G3, Hl.
  - apply G4, Hl.
Qed.

(** [deleteContents] does not clear the builder's fields: once it has
    released a builder that owns anything, a second [deleteContents] of the
    same builder is an invalid (double) free. *)
Theorem deleteContents_twice_double_free (a : InternalPowerAttrs) (H H' : Heap)
  (D : deleteContents a H = Some H')
  (Hown : attrs_model a rise <> None \/ attrs_model a fall <> None \/
          attrs_when_ a <> None \/ attrs_related_pg_pin_ a <> None) :
  deleteContents a H' = None.
Proof.
  pose proof (deleteContents_gone a H H' D) as G.
  destruct a as [w [r f] pg]. unfold attrs_model in Hown.
  cbn [slot attrs_models_ slot_rise slot_fall attrs_when_ attrs_related_pg_pin_] in *.
  unfold deleteContents.
  cbn [slot attrs_models_ slot_rise slot_fall attrs_when_ attrs_related_pg_pin_].
  destruct r as [ml|].
  - cbn [delete_power_model]. rewrite (G ml) by (left; by exists rise). reflexivity.
  - cbn [delete_power_model mbind option_bind].
    destruct f as [ml|].
    + rewrite decide_True by discriminate. cbn [delete_power_model].
      rewrite (G ml) by (left; by exists fall). reflexivity.
    + rewrite decide_False by tauto. cbn [mbind option_bind].
      destruct w as [e|].
      * unfold deleteSubexprs. rewrite (G e) by (right; left; done). reflexivity.
      * destruct pg as [s|]; [|naive_solver].
        cbn [mbind option_bind stringDelete]. unfold free.
        rewrite (G s) by (right; right; done). reflexivity.
Qed.

(** A Power Record shares its model pointers with the builder it was built
    from, so once that builder's [deleteContents] has run, querying the
    record's power for an edge that had a model dereferences released
    storage (an abort on a dangling pointer, nothing returned). *)
Theorem record_dangles_after_builder_teardown
  (findValue : TableModel -> loc -> option loc -> float -> float -> float -> float)
  (a : InternalPowerAttrs) (H H' : Heap) (ip : InternalPower) (rf : RiseFall)
  (ml : loc) (pvt : option loc) (in_slew load_cap : float) (st : QState)
  (D : deleteContents a H = Some H')
  (Hm : models_ ip = attrs_models_ a)
  (Hs : slot rf (attrs_models_ a) = Some ml) :
  InternalPower_power findValue ip rf pvt in_slew load_cap (hp H') st =
  (st, Abort DanglingPtr).
Proof.
  unfold InternalPower_power. rewrite Hm, Hs.
  unfold qbind, deref_power_model.
  rewrite (deleteContents_gone a H H' D ml) by (left; by exists rf). reflexivity.
Qed.

Lemma qbind_axisValue_None {B} s l (k : float -> Q B) h st :
  qbind (axisValue None s l) k h st = (st, Abort NullAxis).
Proof. reflexivity. Qed.

Lemma qbind_set3 {B} v (k : unit -> Q B) h o1 o2 o3 fs :
  qbind (set_axis_value3 v) k h (mkQState (o1, o2, o3) fs) =
  k tt h (mkQState (o1, o2, v) fs).
Proof. reflexivity. Qed.

Lemma qbind_deref_table {B} (t : loc) (k : TableModel -> Q B) h st :
  qbind (deref_table (Some t)) k h st =
  match h !! t with
  | Some (OTable tbl) => k tbl h st
  | _ => (st, Abort DanglingPtr)
  end.
Proof. unfold qbind, deref_table. by destruct (h !! t) as [[]|]. Qed.

Ltac run_axes :=
  repeat first
    [ rewrite qbind_axisValue_None
    | rewrite qbind_axisValue
    | rewrite qbind_set1 | rewrite qbind_set2 | rewrite qbind_set3
    | rewrite set3_run
    | progress cbn [outs fatals] ].

(** The outcome of [findAxisValues] and, when it succeeds, the three values
    it leaves do not depend on what the out-parameters held before. *)
Lemma findAxisValues_outs_indep (t : loc) s l h o1 o2 fs :
  snd (findAxisValues (Some t) s l h (mkQState o1 fs)) =
  snd (findAxisValues (Some t) s l h (mkQState o2 fs)) /\
  (snd (findAxisValues (Some t) s l h (mkQState o1 fs)) = Ret tt ->
   outs (fst (findAxisValues (Some t) s l h (mkQState o1 fs))) =
   outs (fst (findAxisValues (Some t) s l h (mkQState o2 fs)))).
Proof.
  destruct o1 as [[x1 y1] z1], o2 as [[x2 y2] z2].
  unfold findAxisValues. rewrite !qbind_deref_table.
  destruct (h !! t) as [[tbl| | | | | | |]|]; try (split; [reflexivity|discriminate]).
  destruct (tm_order tbl) as [|[[p|p|]|[p|p|]|]|p];
    try (split; [reflexivity|intros; reflexivity]);
    destruct (tm_axis1 tbl) as [a1|]; run_axes;
    try (split; [reflexivity|discriminate]);
    destruct (tm_axis2 tbl) as [a2|]; run_axes;
    try (split; [reflexivity|intros; reflexivity]);
    try (split; [reflexivity|discriminate]);
    destruct (tm_axis3 tbl) as [a3|]; run_axes;
    (split; [reflexivity|try discriminate; intros; reflexivity]).
Qed.

(** [InternalPowerModel::power] and [InternalPowerModel::reportPower] pass
    [axis_value1..3] uninitialized to [findAxisValues]: whatever those
    variables held, the result of the query is the same. *)
Theorem model_queries_ignore_uninitialized_axis_values
  findValue reportValue cellPowerUnit (m : InternalPowerModel) cell pvt s l
  digits h o1 o2 fs :
  snd (InternalPowerModel_power findValue m cell pvt s l h (mkQState o1 fs)) =
  snd (InternalPowerModel_power findValue m cell pvt s l h (mkQState o2 fs)) /\
  snd (InternalPowerModel_reportPower reportValue cellPowerUnit m cell pvt s l
         digits h (mkQState o1 fs)) =
  snd (InternalPowerModel_reportPower reportValue cellPowerUnit m cell pvt s l
         digits h (mkQState o2 fs)).
Proof.
  unfold InternalPowerModel_power, InternalPowerModel_reportPower.
  destruct (model_ m) as [t|]; [|split; reflexivity].
  destruct (findAxisValues_outs_indep t s l h o1 o2 fs) as [E1 E2].
  destruct (findAxisValues (Some t) s l h (mkQState o1 fs)) as [st1 r1] eqn:F1.
  destruct (findAxisValues (Some t) s l h (mkQState o2 fs)) as [st2 r2] eqn:F2.
  cbn [fst snd] in E1, E2. subst r2.
  destruct r1 as [[]|c].
  - rewrite !(qbind_Ret _ _ _ _ _ _ F1), !(qbind_Ret _ _ _ _ _ _ F2).
    specialize (E2 eq_refl).
    rewrite !qbind_deref_table.
    destruct (h !! t) as [[tbl| | | | | | |]|]; try (split; reflexivity).
    cbv [qbind get_outs]. rewrite E2.
    destruct (outs st2) as [[x y] z]. split; reflexivity.
  - rewrite !(qbind_Abort _ _ _ _ _ _ F1), !(qbind_Abort _ _ _ _ _ _ F2).
    split; reflexivity.
Qed.

(** A table of order 0 has no axes: [InternalPowerModel::power] evaluates it
    at [(0, 0, 0)] and ignores the slew and the load, with no error. *)
Theorem order0_power_ignores_slew_and_load findValue (m : InternalPowerModel)
  (t : loc) (tbl : TableModel) cell pvt s l h st
  (Hm : model_ m = Some t) (Ht : h !! t = Some (OTable tbl))
  (Ho : tm_order tbl = 0%Z) :
  InternalPowerModel_power findValue m cell pvt s l h st =
  (mkQState (zero, zero, zero) (fatals st),
   Ret (findValue tbl cell pvt zero zero zero)).
Proof.
  destruct st as [[[o1 o2] o3] fs].
  unfold InternalPowerModel_power, findAxisValues. rewrite Hm.
  rewrite (qbind_Ret _ _ _ _ (mkQState (zero, zero, zero) fs) tt).
  - rewrite qbind_deref_table, Ht. reflexivity.
  - rewrite qbind_deref_table, Ht, Ho. reflexivity.
Qed.

(** What the power queries read of the store: tables, power models and
    ports. *)
Definition view_obj (o : obj) : option obj :=
  match o with
  | OTable _ | OPowerModel _ | OPort _ => Some o
  | _ => None
  end.

Definition query_view (h : gmap loc obj) (l : loc) : option obj :=
  h !! l ≫= view_obj.

Definition views_agree (h h' : gmap loc obj) : Prop :=
  forall l, query_view h l = query_view h' l.

(** A computation whose run depends on the store only through
    [query_view]. *)
Definition view_indep {A} (m : Q A) : Prop :=
  forall h h' st, views_agree h h' -> m h st = m h' st.

Lemma vi_ret {A} (a : A) : view_indep (qret a).
Proof. by intros h h' st _. Qed.

Lemma vi_bind {A B} (m : Q A) (k : A -> Q B) :
  view_indep m -> (forall a, view_indep (k a)) -> view_indep (qbind m k).
Proof.
  intros Hm Hk h h' st E. unfold qbind. rewrite (Hm h h' st E).
  destruct (m h' st) as [st' [a|c]]; [by apply Hk|done].
Qed.

Lemma vi_abort {A} (c : Crash) : view_indep (@qabort A c).
Proof. by intros h h' st _. Qed.

Lemma vi_criticalError id msg : view_indep (criticalError id msg).
Proof. by intros h h' st _. Qed.

Lemma vi_set1 v : view_indep (set_axis_value1 v).
Proof. by intros h h' st _. Qed.
Lemma vi_set2 v : view_indep (set_axis_value2 v).
Proof. by intros h h' st _. Qed.
Lemma vi_set3 v : view_indep (set_axis_value3 v).
Proof. by intros h h' st _. Qed.

Lemma vi_get_outs : view_indep get_outs.
Proof. by intros h h' st _. Qed.

Ltac vi_deref l :=
  let E := fresh "E" in
  intros ?h ?h' ?st E; specialize (E l); unfold query_view in E;
  destruct (_ !! l) as [[]|], (_ !! l) as [[]|]; simpl in E; congruence.

Lemma vi_deref_table p : view_indep (deref_table p).
Proof.
  destruct p as [t|]; [|by intros h h' st _].
  unfold deref_table. vi_deref t.
Qed.

Lemma vi_deref_power_model (l : loc) : view_indep (deref_power_model l).
Proof. unfold deref_power_model. vi_deref l. Qed.

Lemma vi_deref_port (l : loc) : view_indep (deref_port l).
Proof. unfold deref_port. vi_deref l. Qed.

Create HintDb vi.
#[local] Hint Resolve vi_ret vi_abort vi_criticalError vi_set1 vi_set2 vi_set3
  vi_get_outs vi_deref_table vi_deref_power_model vi_deref_port : vi.

Ltac vi_step :=
  match goal with
  | |- view_indep (qbind _ _) => apply vi_bind; [|intros ?]
  | |- view_indep (match ?x with _ => _ end) => destruct x
  | |- view_indep (if ?c then _ else _) => destruct c
  | |- view_indep _ => solve [eauto with vi]
  end.

Lemma vi_axisValue ax s l : view_indep (axisValue ax s l).
Proof. unfold axisValue. repeat vi_step. Qed.
#[local] Hint Resolve vi_axisValue : vi.

Lemma vi_findAxisValues p s l : view_indep (findAxisValues p s l).
Proof. unfold findAxisValues. repeat vi_step. Qed.
#[local] Hint Resolve vi_findAxisValues : vi.








(** A computation that only ever appends to the fatal-error log. *)
Definition fmono {A} (m : Q A) : Prop :=
  forall h st, fatals st `prefix_of` fatals (fst (m h st)).

Lemma fm_ret {A} (a : A) : fmono (qret a).
Proof. intros h st. reflexivity. Qed.

Lemma fm_bind {A B} (m : Q A) (k : A -> Q B) :
  fmono m -> (forall a, fmono (k a)) -> fmono (qbind m k).
Proof.
  intros Hm Hk h st. unfold qbind. specialize (Hm h st).
  destruct (m h st) as [st' [a|c]]; simpl in *; [|done].
  etrans; [exact Hm|apply Hk].
Qed.

Lemma fm_abort {A} (c : Crash) : fmono (@qabort A c).
Proof. intros h st. reflexivity. Qed.

Lemma fm_criticalError id msg : fmono (criticalError id msg).
Proof. intros h st. by eexists. Qed.

Lemma fm_set1 v : fmono (set_axis_value1 v).
Proof. intros h [[[o1 o2] o3] fs]. reflexivity. Qed.
Lemma fm_set2 v : fmono (set_axis_value2 v).
Proof. intros h [[[o1 o2] o3] fs]. reflexivity. Qed.
Lemma fm_set3 v : fmono (set_axis_value3 v).
Proof. intros h [[[o1 o2] o3] fs]. reflexivity. Qed.

Lemma fm_get_outs : fmono get_outs.
Proof. intros h st. reflexivity. Qed.

Lemma fm_deref_table p : fmono (deref_table p).
Proof. intros h st. unfold deref_table. destruct p as [t|]; [|reflexivity]. by destruct (h !! t) as [[]|]. Qed.

Create HintDb fm.
#[local] Hint Resolve fm_ret fm_abort fm_criticalError fm_set1 fm_set2 fm_set3
  fm_get_outs fm_deref_table : fm.

Ltac fm_step :=
  match goal with
  | |- fmono (qbind _ _) => apply fm_bind; [|intros ?]
  | |- fmono (match ?x with _ => _ end) => destruct x
  | |- fmono (if ?c then _ else _) => destruct c
  | |- fmono _ => solve [eauto with fm]
  end.

Lemma fm_axisValue ax s l : fmono (axisValue ax s l).
Proof. unfold axisValue. repeat fm_step. Qed.
#[local] Hint Resolve fm_axisValue : fm.

Lemma fm_elem {A} (m : Q A) h st f :
  fmono m -> f ∈ fatals st -> f ∈ fatals (fst (m h st)).
Proof.
  intros Hm Hf. destruct (Hm h st) as [k ->]. apply elem_of_app. by left.
Qed.

Lemma fm_elem_bind {A B} (m : Q A) (k : A -> Q B) h st f :
  (forall a, fmono (k a)) -> f ∈ fatals (fst (m h st)) ->
  f ∈ fatals (fst (qbind m k h st)).
Proof.
  intros Hk Hf. unfold qbind.
  destruct (m h st) as [st' [a|c]]; simpl in *; [by apply fm_elem|done].
Qed.

Lemma checkAxis_axis_fatals (a : TableAxis) o :
  checkAxis a = true ->
  axis_fatals a o = [mkFatal 226 "unsupported table axes" o].
Proof.
  unfold checkAxis, axis_fatals.
  destruct (axis_variable a); try discriminate; reflexivity.
Qed.

Lemma checkAxes_axis1 (tbl : TableModel) (a : TableAxis) :
  checkAxes tbl = true -> tm_axis1 tbl = Some a -> checkAxis a = true.
Proof.
  unfold checkAxes. intros Hc Ha. rewrite Ha in Hc.
  destruct (checkAxis a); [done|].
  destruct (tm_axis2 tbl); discriminate.
Qed.

(** The axes [checkAxes] accepts (constrained/related pin transition,
    related output capacitance) are none of the two [axisValue] resolves
    (input transition time, total output net capacitance): when
    [InternalPowerModel::power] runs on a table that passes [checkAxes] and
    has an order of 1 to 3 and a first axis, it always raises the fatal
    error 226 "unsupported table axes". *)
Theorem checkAxes_tables_raise_unsupported_axes findValue (m : InternalPowerModel)
  (t : loc) (tbl : TableModel) (a1 : TableAxis) cell pvt s l h st
  (Hm : model_ m = Some t) (Ht : h !! t = Some (OTable tbl))
  (Hc : checkAxes tbl = true) (Ha1 : tm_axis1 tbl = Some a1)
  (Ho : tm_order tbl = 1%Z \/ tm_order tbl = 2%Z \/ tm_order tbl = 3%Z) :
  exists f, f ∈ fatals (fst (InternalPowerModel_power findValue m cell pvt s l h st))
            /\ fatal_id f = 226%Z.
Proof.
  exists (mkFatal 226 "unsupported table axes" (outs st)). split; [|reflexivity].
  unfold InternalPowerModel_power. rewrite Hm.
  apply fm_elem_bind; [intros ?; repeat fm_step|].
  unfold findAxisValues. rewrite qbind_deref_table, Ht, Ha1.
  destruct Ho as [Ho|[Ho|Ho]]; rewrite Ho; cbv beta iota;
    rewrite qbind_axisValue, (checkAxis_axis_fatals a1) by
      exact (checkAxes_axis1 tbl a1 Hc Ha1);
    (apply fm_elem; [repeat fm_step|]);
    cbn [fatals]; apply elem_of_app; right; by apply list_elem_of_singleton.
Qed.

(** [~InternalPowerModel] then the release of the model: deleting a live
    power model whose table pointer is null or a live table releases the
    table (if any) and then the model itself, in that order, each once,
    and leaves every other object as it was. *)
Theorem delete_power_model_releases_table_then_model (H : Heap) (ml : loc)
  (m : InternalPowerModel)
  (Hm : hp H !! ml = Some (OPowerModel m))
  (Ht : forall t, model_ m = Some t -> exists tb, hp H !! t = Some (OTable tb)) :
  exists H', delete_power_model (Some ml) H = Some H' /\
    freed H' = freed H ++ option_list (model_ m) ++ [ml] /\
    hp H' !! ml = None /\
    (forall t, model_ m = Some t -> hp H' !! t = None) /\
    (forall l, l ∉ option_list (model_ m) ++ [ml] -> hp H' !! l = hp H !! l).
Proof.
  destruct (delete_power_model_frees H (Some ml)) as (H' & D & Fr & _ & Gone & Keep).
  { intros ? [= <-]. by exists m. }
  exists H'. cbn [model_frees] in Fr, Gone, Keep. rewrite Hm in Fr, Gone, Keep.
  split; [done|]. split; [done|]. split; [|split].
  - apply Gone. apply elem_of_app. right. by apply list_elem_of_singleton.
  - intros t Et. apply Gone. apply elem_of_app. left. rewrite Et. by left.
  - exact Keep.
Qed.

(** Deleting a power model whose table was already released is a double
    release of that table: [~InternalPowerModel] fails. *)
Theorem delete_power_model_released_table_fails (H : Heap) (ml t : loc)
  (m : InternalPowerModel)
  (Hm : hp H !! ml = Some (OPowerModel m)) (Et : model_ m = Some t)
  (Ht : hp H !! t = None) :
  delete_power_model (Some ml) H = None.
Proof.
  cbn [delete_power_model]. rewrite Hm, Et. cbn [delete_table].
  unfold free. by rewrite Ht.
Qed.

(** ** Concrete instances of the further properties *)

(** The builder of [heap7] plus a second string at 11. *)
Definition heap9 : Heap :=
  mkHeap (<[11%positive := OString "VSS"]> (<[1%positive := OAttrs attrs6]> (hp heap6))) [].

(** [heap6] after [deleteContents attrs6]. *)
Definition heap6_torn : Heap :=
  match deleteContents attrs6 heap6 with Some H' => H' | None => heap6 end.

Definition tbl0 : TableModel := mkTableModel 0 None None None [].
Definition tbl_rel : TableModel := mkTableModel 1 (Some ax_rel) None None [].
Definition fv0 : TableModel -> loc -> option loc -> float -> float -> float -> float :=
  fun _ _ _ v1 v2 v3 => (v1 + v2 + v3)%float.

Lemma setModel_model_roundtrip_witness :
  exists H' a',
    setModel 1%positive fall None heap7 = Some H' /\
    hp H' !! 1%positive = Some (OAttrs a') /\
    attrs_model a' fall = None /\ attrs_model a' rise = Some 2%positive.
Proof.
  destruct (setModel_model_roundtrip 1%positive attrs6 heap7 fall None eq_refl)
    as (H' & a' & D & _ & _ & S & M & O & _).
  exists H', a'. split; [exact D|]. split; [exact S|]. split; [exact M|].
  rewrite (O rise ltac:(discriminate)). reflexivity.
Defined.

Lemma setWhen_releases_nothing_witness :
  exists H',
    setWhen 1%positive None heap7 = Some H' /\ freed H' = [] /\
    hp H' !! 6%positive = hp heap7 !! 6%positive.
Proof.
  destruct (setWhen_releases_nothing 1%positive attrs6 heap7 None eq_refl)
    as (H' & D & E & _ & F).
  exists H'. split; [exact D|]. split; [exact E|]. apply F. discriminate.
Defined.

Lemma setRelatedPgPin_replaces_witness :
  exists H' a',
    setRelatedPgPin 1%positive (Some 11%positive) heap9 = Some H' /\
    freed H' = [5%positive] /\ hp H' !! 1%positive = Some (OAttrs a').
Proof.
  destruct (setRelatedPgPin_replaces 1%positive attrs6 heap9 (Some 11%positive) eq_refl)
    as (H' & a' & D & E & S & _).
  - intros s [= <-]. eexists; reflexivity.
  - intros l [= <-]. split; [discriminate|]. eexists; reflexivity.
  - exists H', a'. split; [exact D|]. split; [exact E|exact S].
Defined.

Lemma setRelatedPgPin_self_use_after_free_witness :
  setRelatedPgPin 1%positive (Some 5%positive) heap9 = None.
Proof.
  exact (setRelatedPgPin_self_use_after_free 1%positive 5%positive attrs6 "VDD" heap9
           eq_refl eq_refl eq_refl).
Defined.

Lemma deleteContents_twice_double_free_witness :
  deleteContents attrs6 heap6 = Some heap6_torn /\
  deleteContents attrs6 heap6_torn = None.
Proof.
  split; [reflexivity|].
  apply (deleteContents_twice_double_free attrs6 heap6 heap6_torn).
  - reflexivity.
  - left. vm_compute. discriminate.
Defined.

Lemma record_dangles_after_builder_teardown_witness :
  InternalPower_power fv0
    (mkInternalPower 8%positive 9%positive (Some 4%positive) (attrs_models_ attrs6)
       (Some 5%positive))
    rise None 0.75%float 3.25%float (hp heap6_torn) st0 =
  (st0, Abort DanglingPtr).
Proof.
  apply (record_dangles_after_builder_teardown fv0 attrs6 heap6 heap6_torn _ rise
           2%positive); reflexivity.
Defined.

Lemma order0_power_ignores_slew_and_load_witness :
  InternalPowerModel_power fv0 (mkInternalPowerModel (Some 1%positive)) 6%positive None
    0.75%float 3.25%float {[ 1%positive := OTable tbl0 ]} st0 =
  (mkQState (zero, zero, zero) [], Ret (fv0 tbl0 6%positive None zero zero zero)).
Proof.
  apply (order0_power_ignores_slew_and_load fv0 _ 1%positive tbl0); reflexivity.
Defined.


Lemma checkAxes_tables_raise_unsupported_axes_witness :
  checkAxes tbl_rel = true /\
  exists f,
    f ∈ fatals (fst (InternalPowerModel_power fv0 (mkInternalPowerModel (Some 1%positive))
                      6%positive None 0.75%float 3.25%float
                      {[ 1%positive := OTable tbl_rel ]} st0)) /\
    fatal_id f = 226%Z.
Proof.
  split; [reflexivity|].
  apply (checkAxes_tables_raise_unsupported_axes fv0 _ 1%positive tbl_rel ax_rel);
    try reflexivity.
  left. reflexivity.
Defined.

Lemma delete_power_model_releases_table_then_model_witness :
  exists H', delete_power_model (Some 2%positive) heap6 = Some H' /\
    freed H' = [3%positive; 2%positive].
Proof.
  destruct (delete_power_model_releases_table_then_model heap6 2%positive
              (mkInternalPowerModel (Some 3%positive)) eq_refl) as (H' & D & E & _).
  - intros t [= <-]. eexists; reflexivity.
  - exists H'. split; [exact D|exact E].
Defined.

Lemma delete_power_model_released_table_fails_witness :
  delete_power_model (Some 2%positive)
    (mkHeap {[ 2%positive := OPowerModel (mkInternalPowerModel (Some 3%positive)) ]} [])
  = None.
Proof.
  exact (delete_power_model_released_table_fails
           (mkHeap {[ 2%positive := OPowerModel (mkInternalPowerModel (Some 3%positive)) ]} [])
           2%positive 3%positive
           (mkInternalPowerModel (Some 3%positive)) eq_refl eq_refl eq_refl).
Defined.
